(** * magenta/lib/midi_io.py: MIDI <-> NoteSequence conversion

    A shallow embedding of [midi_to_sequence_proto],
    [sequence_proto_to_pretty_midi] and [midi_file_to_sequence_proto].

    - Python [int] is [Z]; [%] and [/] on ints (Python 2) are the floor
      operations [Z.modulo] and [Z.div].
    - Python [float] is IEEE binary64, i.e. Rocq's primitive [float];
      [==], [>] and truthiness are [PrimFloat.eqb], [PrimFloat.ltb] and
      "not equal to zero"; [/] raises ZeroDivisionError on a zero divisor.
    - Exceptions are the [Raise] branch of [result]; Python's [None] is
      [option]'s [None].
    - The [pretty_midi] objects and the NoteSequence message are records
      holding the attributes this module reads and writes.  Their
      constructors are modelled as storing their arguments: the exceptions
      the library raises on its own account (ZeroDivisionError in the
      PrettyMIDI constructor when [initial_tempo * resolution] is zero,
      ValueError in the TimeSignature and KeySignature constructors for
      arguments it refuses) are outside this module and are not modelled.
      [Return pm] from the encoder therefore means that this module's own
      code raised nothing, and the statements about the encoder are about
      the objects it returns.  What the library computes itself (parsing,
      [get_tempo_changes], [time_to_tick]) and the file system are section
      variables.  Log output is not modelled.
    - A Python variable that refers to an object inside a list
      ([instrument] in the encoder) is the position of that object in the
      list. *)

From Stdlib Require Import ZArith Floats.
From stdpp Require Import gmap strings list sorting.

Local Open Scope Z_scope.
#[local] Set Warnings "-clear-no-such-hyp".

(** ** Exceptions *)

Inductive message :=
| MidiDecodingError                 (* 'Midi decoding error %s: %s' *)
| InvalidMidiMode (midi_mode : Z)   (* 'Invalid midi_mode %i' % midi_mode *)
| Wrapped (e : message).            (* MIDIConversionError(e) *)

Inductive exn :=
| MIDIConversionError (args : message)
| ZeroDivisionError
| GFileError.                       (* tf.gfile.Open fails *)

Inductive result (A : Type) :=
| Return (a : A)
| Raise (e : exn).
Arguments Return {A} a.
Arguments Raise {A} e.

Definition bind {A B} (r : result A) (k : A -> result B) : result B :=
  match r with
  | Return a => k a
  | Raise e => Raise e
  end.

Notation "x <- r ;; k" := (bind r (fun x => k))
  (at level 100, r at next level, right associativity).

(** [for x in l: s = body x s], stopping at the first exception. *)
Fixpoint for_each {S A} (l : list A) (body : A -> S -> result S) (s : S)
  : result S :=
  match l with
  | [] => Return s
  | x :: l' => s' <- body x s ;; for_each l' body s'
  end.

(** [enumerate(l)], counting from [start]. *)
Fixpoint enumerate_from {A} (start : Z) (l : list A) : list (Z * A) :=
  match l with
  | [] => []
  | x :: l' => (start, x) :: enumerate_from (start + 1) l'
  end.

Definition enumerate {A} (l : list A) : list (Z * A) := enumerate_from 0 l.

(** ** Python float operations *)

(** [float(z)]: the binary64 value nearest to [z]. *)
Definition float_of_Z (z : Z) : float :=
  SF2Prim (binary_normalize prec emax z 0 false).

(** [bool(x)] for a float. *)
Definition truthy (x : float) : bool := negb (PrimFloat.eqb x 0%float).

(** [x / y] on floats raises [ZeroDivisionError] when [y == 0]. *)
Definition float_div (x y : float) : result float :=
  if PrimFloat.eqb y 0%float then Raise ZeroDivisionError
  else Return (PrimFloat.div x y).

(** ** The pretty_midi object model *)

Module pretty_midi.

Module Note.
Record t := Note { velocity : Z; pitch : Z; start : float; end_ : float }.
End Note.

Module PitchBend.
Record t := PitchBend { pitch : Z; time : float }.
End PitchBend.

Module ControlChange.
Record t := ControlChange { number : Z; value : Z; time : float }.
End ControlChange.

Module TimeSignature.
Record t := TimeSignature
  { numerator : Z; denominator : Z; time : float }.
End TimeSignature.

Module KeySignature.
Record t := KeySignature { key_number : Z; time : float }.
End KeySignature.

Module Instrument.
Record t := mk
  { program : Z;
    is_drum : bool;
    notes : list Note.t;
    pitch_bends : list PitchBend.t;
    control_changes : list ControlChange.t }.

(** [pretty_midi.Instrument(program, is_drum=False)] *)
Definition Instrument (program : Z) (is_drum : bool) : t :=
  mk program is_drum [] [] [].
End Instrument.

(** [initial_tempo] is the constructor's keyword argument when one was
    passed; [tick_scales] are the entries appended to
    [_PrettyMIDI__tick_scales] after construction. *)
Record PrettyMIDI := mk
  { resolution : Z;
    initial_tempo : option float;
    tick_scales : list (Z * float);
    time_signature_changes : list TimeSignature.t;
    key_signature_changes : list KeySignature.t;
    instruments : list Instrument.t }.

(** [pretty_midi.PrettyMIDI(resolution=..., **kwargs)], as far as it
    stores its arguments; the first tick scale the library derives from
    them, and the ZeroDivisionError it raises when their product is zero,
    are the library's. *)
Definition new (resolution : Z) (initial_tempo : option float)
  : PrettyMIDI :=
  mk resolution initial_tempo [] [] [] [].

End pretty_midi.

(** ** music_pb2.NoteSequence *)

Module music_pb2.

Inductive Mode := MAJOR | MINOR.

Module TimeSignature.
Record t := mk { time : float; numerator : Z; denominator : Z }.
End TimeSignature.

Module KeySignature.
Record t := mk { time : float; key : Z; mode : Mode }.
End KeySignature.

Module Tempo.
Record t := mk { time : float; bpm : float }.
End Tempo.

Module Note.
Record t := mk
  { instrument : Z; program : Z; start_time : float; end_time : float;
    pitch : Z; velocity : Z }.
End Note.

Module PitchBend.
Record t := mk
  { instrument : Z; program : Z; time : float; bend : Z }.
End PitchBend.

Module ControlChange.
Record t := mk
  { instrument : Z; program : Z; time : float;
    control_number : Z; control_value : Z }.
End ControlChange.

Record NoteSequence := mk
  { ticks_per_beat : Z;
    total_time : float;
    time_signatures : list TimeSignature.t;
    key_signatures : list KeySignature.t;
    tempos : list Tempo.t;
    notes : list Note.t;
    pitch_bends : list PitchBend.t;
    control_changes : list ControlChange.t }.

(** [music_pb2.NoteSequence()] *)
Definition new : NoteSequence := mk 0 0%float [] [] [] [] [] [].

End music_pb2.

Import music_pb2.

(** The offset used to change the mode of a key from major to minor when
    generating a PrettyMIDI KeySignature. *)
Definition _PRETTY_MIDI_MAJOR_TO_MINOR_OFFSET : Z := 12.

(** [midi_data] is either the contents of a MIDI file or a populated
    [pretty_midi.PrettyMIDI] object. *)
Inductive midi_input :=
| Contents (midi_data : string)
| Object (midi : pretty_midi.PrettyMIDI).

(** The state of the gathering loops of [midi_to_sequence_proto] that is
    not part of the sequence: the three lists of
    [(program, num_instrument, event)] triples. *)
Record gathered := mk_gathered
  { midi_notes : list (Z * Z * pretty_midi.Note.t);
    midi_pitch_bends : list (Z * Z * pretty_midi.PitchBend.t);
    midi_control_changes : list (Z * Z * pretty_midi.ControlChange.t) }.

(** Attribute assignments on the sequence under construction. *)
Definition set_ticks_per_beat (v : Z) (s : NoteSequence) : NoteSequence :=
  mk v (total_time s) (time_signatures s) (key_signatures s) (tempos s)
     (notes s) (pitch_bends s) (control_changes s).

Definition set_total_time (v : float) (s : NoteSequence) : NoteSequence :=
  mk (ticks_per_beat s) v (time_signatures s) (key_signatures s) (tempos s)
     (notes s) (pitch_bends s) (control_changes s).

Definition add_time_signature (v : TimeSignature.t) (s : NoteSequence)
  : NoteSequence :=
  mk (ticks_per_beat s) (total_time s) (time_signatures s ++ [v])
     (key_signatures s) (tempos s) (notes s) (pitch_bends s)
     (control_changes s).

Definition add_key_signature (v : KeySignature.t) (s : NoteSequence)
  : NoteSequence :=
  mk (ticks_per_beat s) (total_time s) (time_signatures s)
     (key_signatures s ++ [v]) (tempos s) (notes s) (pitch_bends s)
     (control_changes s).

Definition add_tempo (v : Tempo.t) (s : NoteSequence) : NoteSequence :=
  mk (ticks_per_beat s) (total_time s) (time_signatures s)
     (key_signatures s) (tempos s ++ [v]) (notes s) (pitch_bends s)
     (control_changes s).

Definition add_note (v : Note.t) (s : NoteSequence) : NoteSequence :=
  mk (ticks_per_beat s) (total_time s) (time_signatures s)
     (key_signatures s) (tempos s) (notes s ++ [v]) (pitch_bends s)
     (control_changes s).

Definition add_pitch_bend (v : PitchBend.t) (s : NoteSequence)
  : NoteSequence :=
  mk (ticks_per_beat s) (total_time s) (time_signatures s)
     (key_signatures s) (tempos s) (notes s) (pitch_bends s ++ [v])
     (control_changes s).

Definition add_control_change (v : ControlChange.t) (s : NoteSequence)
  : NoteSequence :=
  mk (ticks_per_beat s) (total_time s) (time_signatures s)
     (key_signatures s) (tempos s) (notes s) (pitch_bends s)
     (control_changes s ++ [v]).

(** ** midi_to_sequence_proto, one loop at a time *)

(** Body of the loop over [midi.time_signature_changes]. *)
Definition populate_time_signature (midi_time : pretty_midi.TimeSignature.t)
  (sequence : NoteSequence) : NoteSequence :=
  add_time_signature
    (TimeSignature.mk (pretty_midi.TimeSignature.time midi_time)
       (pretty_midi.TimeSignature.numerator midi_time)
       (pretty_midi.TimeSignature.denominator midi_time))
    sequence.

(** Body of the loop over [midi.key_signature_changes]. *)
Definition populate_key_signature (midi_key : pretty_midi.KeySignature.t)
  (sequence : NoteSequence) : result NoteSequence :=
  let time := pretty_midi.KeySignature.time midi_key in
  let key := pretty_midi.KeySignature.key_number midi_key mod 12 in
  let midi_mode := pretty_midi.KeySignature.key_number midi_key / 12 in
  if midi_mode =? 0 then
    Return (add_key_signature (KeySignature.mk time key MAJOR) sequence)
  else if midi_mode =? 1 then
    Return (add_key_signature (KeySignature.mk time key MINOR) sequence)
  else Raise (MIDIConversionError (InvalidMidiMode midi_mode)).

(** Body of the loop over [zip(tempo_times, tempo_bpms)]. *)
Definition populate_tempo (tb : float * float) (sequence : NoteSequence)
  : NoteSequence :=
  add_tempo (Tempo.mk (fst tb) (snd tb)) sequence.

(** Body of the loop over [midi_instrument.notes]. *)
Definition gather_note (program num_instrument : Z)
  (midi_note : pretty_midi.Note.t) (st : NoteSequence * gathered)
  : NoteSequence * gathered :=
  let (sequence, g) := st in
  let sequence :=
    if negb (truthy (total_time sequence))
       || PrimFloat.ltb (total_time sequence) (pretty_midi.Note.end_ midi_note)
    then set_total_time (pretty_midi.Note.end_ midi_note) sequence
    else sequence in
  (sequence,
   mk_gathered (midi_notes g ++ [(program, num_instrument, midi_note)])
     (midi_pitch_bends g) (midi_control_changes g)).

Definition gather_pitch_bend (program num_instrument : Z)
  (midi_pitch_bend : pretty_midi.PitchBend.t) (st : NoteSequence * gathered)
  : NoteSequence * gathered :=
  let (sequence, g) := st in
  (sequence,
   mk_gathered (midi_notes g)
     (midi_pitch_bends g ++ [(program, num_instrument, midi_pitch_bend)])
     (midi_control_changes g)).

Definition gather_control_change (program num_instrument : Z)
  (midi_control_change : pretty_midi.ControlChange.t)
  (st : NoteSequence * gathered) : NoteSequence * gathered :=
  let (sequence, g) := st in
  (sequence,
   mk_gathered (midi_notes g) (midi_pitch_bends g)
     (midi_control_changes g
        ++ [(program, num_instrument, midi_control_change)])).

(** Body of the loop over [enumerate(midi.instruments)]. *)
Definition gather_instrument (st : NoteSequence * gathered)
  (e : Z * pretty_midi.Instrument.t) : NoteSequence * gathered :=
  let (num_instrument, midi_instrument) := e in
  let program := pretty_midi.Instrument.program midi_instrument in
  let st :=
    fold_left (fun st n => gather_note program num_instrument n st)
      (pretty_midi.Instrument.notes midi_instrument) st in
  let st :=
    fold_left (fun st b => gather_pitch_bend program num_instrument b st)
      (pretty_midi.Instrument.pitch_bends midi_instrument) st in
  fold_left (fun st c => gather_control_change program num_instrument c st)
    (pretty_midi.Instrument.control_changes midi_instrument) st.

(** Bodies of the three copying loops. *)
Definition copy_note (sequence : NoteSequence)
  (e : Z * Z * pretty_midi.Note.t) : NoteSequence :=
  let '(program, instrument, midi_note) := e in
  add_note
    (Note.mk instrument program (pretty_midi.Note.start midi_note)
       (pretty_midi.Note.end_ midi_note) (pretty_midi.Note.pitch midi_note)
       (pretty_midi.Note.velocity midi_note))
    sequence.

Definition copy_pitch_bend (sequence : NoteSequence)
  (e : Z * Z * pretty_midi.PitchBend.t) : NoteSequence :=
  let '(program, instrument, midi_pitch_bend) := e in
  add_pitch_bend
    (PitchBend.mk instrument program
       (pretty_midi.PitchBend.time midi_pitch_bend)
       (pretty_midi.PitchBend.pitch midi_pitch_bend))
    sequence.

Definition copy_control_change (sequence : NoteSequence)
  (e : Z * Z * pretty_midi.ControlChange.t) : NoteSequence :=
  let '(program, instrument, midi_control_change) := e in
  add_control_change
    (ControlChange.mk instrument program
       (pretty_midi.ControlChange.time midi_control_change)
       (pretty_midi.ControlChange.number midi_control_change)
       (pretty_midi.ControlChange.value midi_control_change))
    sequence.

Section Decoder.

(** [pretty_midi.PrettyMIDI(StringIO(midi_data))]; [None] when it raises. *)
Variable parse : string -> option pretty_midi.PrettyMIDI.

(** [midi.get_tempo_changes()] *)
Variable get_tempo_changes :
  pretty_midi.PrettyMIDI -> list float * list float.

(** [tf.gfile.Open(midi_file, 'r').read()]; [None] when it raises. *)
Variable gfile_read : string -> option string.

(** Everything after [midi] is bound. *)
Definition convert (midi : pretty_midi.PrettyMIDI) : result NoteSequence :=
  let sequence := music_pb2.new in
  let sequence := set_ticks_per_beat (pretty_midi.resolution midi) sequence in
  let sequence :=
    fold_left (fun s t => populate_time_signature t s)
      (pretty_midi.time_signature_changes midi) sequence in
  sequence <- for_each (pretty_midi.key_signature_changes midi)
                populate_key_signature sequence ;;
  let (tempo_times, tempo_bpms) := get_tempo_changes midi in
  let sequence :=
    fold_left (fun s tb => populate_tempo tb s)
      (zip tempo_times tempo_bpms) sequence in
  let (sequence, g) :=
    fold_left gather_instrument (enumerate (pretty_midi.instruments midi))
      (sequence, mk_gathered [] [] []) in
  let sequence := fold_left copy_note (midi_notes g) sequence in
  let sequence := fold_left copy_pitch_bend (midi_pitch_bends g) sequence in
  let sequence :=
    fold_left copy_control_change (midi_control_changes g) sequence in
  Return sequence.

Definition midi_to_sequence_proto (midi_data : midi_input)
  (continue_on_exception : bool) : result (option NoteSequence) :=
  match midi_data with
  | Object midi => sequence <- convert midi ;; Return (Some sequence)
  | Contents midi_data =>
      match parse midi_data with
      | Some midi => sequence <- convert midi ;; Return (Some sequence)
      | None =>
          if continue_on_exception then Return None
          else Raise (MIDIConversionError MidiDecodingError)
      end
  end.

(** The call inside passes only [midi_as_string], so it runs with the
    default [continue_on_exception=False]. *)
Definition midi_file_to_sequence_proto (midi_file : string)
  (continue_on_exception : bool) : result (option NoteSequence) :=
  match gfile_read midi_file with
  | None => Raise GFileError
  | Some midi_as_string =>
      match midi_to_sequence_proto (Contents midi_as_string) false with
      | Return r => Return r
      | Raise (MIDIConversionError e) =>
          if continue_on_exception then Return None
          else Raise (MIDIConversionError (Wrapped e))
      | Raise e => Raise e
      end
  end.

End Decoder.

(** ** sequence_proto_to_pretty_midi *)

(** Attribute assignments on the PrettyMIDI object under construction. *)
Definition set_instruments (v : list pretty_midi.Instrument.t)
  (pm : pretty_midi.PrettyMIDI) : pretty_midi.PrettyMIDI :=
  pretty_midi.mk (pretty_midi.resolution pm) (pretty_midi.initial_tempo pm)
    (pretty_midi.tick_scales pm) (pretty_midi.time_signature_changes pm)
    (pretty_midi.key_signature_changes pm) v.

Definition add_time_signature_change (v : pretty_midi.TimeSignature.t)
  (pm : pretty_midi.PrettyMIDI) : pretty_midi.PrettyMIDI :=
  pretty_midi.mk (pretty_midi.resolution pm) (pretty_midi.initial_tempo pm)
    (pretty_midi.tick_scales pm)
    (pretty_midi.time_signature_changes pm ++ [v])
    (pretty_midi.key_signature_changes pm) (pretty_midi.instruments pm).

Definition add_key_signature_change (v : pretty_midi.KeySignature.t)
  (pm : pretty_midi.PrettyMIDI) : pretty_midi.PrettyMIDI :=
  pretty_midi.mk (pretty_midi.resolution pm) (pretty_midi.initial_tempo pm)
    (pretty_midi.tick_scales pm) (pretty_midi.time_signature_changes pm)
    (pretty_midi.key_signature_changes pm ++ [v])
    (pretty_midi.instruments pm).

Definition add_tick_scale (v : Z * float) (pm : pretty_midi.PrettyMIDI)
  : pretty_midi.PrettyMIDI :=
  pretty_midi.mk (pretty_midi.resolution pm) (pretty_midi.initial_tempo pm)
    (pretty_midi.tick_scales pm ++ [v])
    (pretty_midi.time_signature_changes pm)
    (pretty_midi.key_signature_changes pm) (pretty_midi.instruments pm).

(** The value of [instrument_events[key]]: the inner
    [defaultdict(list)], read at ['notes'], ['bends'] and ['controls']. *)
Record events := mk_events
  { ev_notes : list pretty_midi.Note.t;
    ev_bends : list pretty_midi.PitchBend.t;
    ev_controls : list pretty_midi.ControlChange.t }.

Definition no_events : events := mk_events [] [] [].

(** [instrument_events[key]] on the outer [defaultdict]. *)
Definition events_at (key : Z * Z) (instrument_events : gmap (Z * Z) events)
  : events :=
  default no_events (instrument_events !! key).

(** Bodies of the three gathering loops. *)
Definition group_note (instrument_events : gmap (Z * Z) events)
  (seq_note : Note.t) : gmap (Z * Z) events :=
  let key := (Note.instrument seq_note, Note.program seq_note) in
  let e := events_at key instrument_events in
  <[key := mk_events
             (ev_notes e
                ++ [pretty_midi.Note.Note (Note.velocity seq_note)
                      (Note.pitch seq_note) (Note.start_time seq_note)
                      (Note.end_time seq_note)])
             (ev_bends e) (ev_controls e)]> instrument_events.

Definition group_bend (instrument_events : gmap (Z * Z) events)
  (seq_bend : PitchBend.t) : gmap (Z * Z) events :=
  let key := (PitchBend.instrument seq_bend, PitchBend.program seq_bend) in
  let e := events_at key instrument_events in
  <[key := mk_events (ev_notes e)
             (ev_bends e
                ++ [pretty_midi.PitchBend.PitchBend (PitchBend.bend seq_bend)
                      (PitchBend.time seq_bend)])
             (ev_controls e)]> instrument_events.

Definition group_control (instrument_events : gmap (Z * Z) events)
  (seq_cc : ControlChange.t) : gmap (Z * Z) events :=
  let key :=
    (ControlChange.instrument seq_cc, ControlChange.program seq_cc) in
  let e := events_at key instrument_events in
  <[key := mk_events (ev_notes e) (ev_bends e)
             (ev_controls e
                ++ [pretty_midi.ControlChange.ControlChange
                      (ControlChange.control_number seq_cc)
                      (ControlChange.control_value seq_cc)
                      (ControlChange.time seq_cc)])]> instrument_events.

(** [instrument_events] after the three gathering loops. *)
Definition gather_events (sequence : NoteSequence) : gmap (Z * Z) events :=
  let m := fold_left group_note (notes sequence) ∅ in
  let m := fold_left group_bend (pitch_bends sequence) m in
  fold_left group_control (control_changes sequence) m.

(** Python's order on the tuples [(instr_id, prog_id)]. *)
Definition key_le (a b : Z * Z) : Prop :=
  a.1 < b.1 ∨ (a.1 = b.1 ∧ a.2 ≤ b.2).

Global Instance key_le_dec : RelDecision key_le.
Proof. intros a b. unfold key_le. apply _. Defined.

(** [sorted(instrument_events.keys())] *)
Definition sorted_keys (instrument_events : gmap (Z * Z) events)
  : list (Z * Z) :=
  merge_sort key_le (map_to_list instrument_events).*1.

(** The assignments made through the variable [instrument]. *)
Definition assign_events (prog_id : Z) (e : events)
  (i : pretty_midi.Instrument.t) : pretty_midi.Instrument.t :=
  pretty_midi.Instrument.mk prog_id (pretty_midi.Instrument.is_drum i)
    (ev_notes e) (ev_bends e) (ev_controls e).

(** Body of the loop over the sorted keys.  The state is
    [pm.instruments] and the position in it of the object the variable
    [instrument] refers to. *)
Definition attach_events (instrument_events : gmap (Z * Z) events)
  (st : list pretty_midi.Instrument.t * nat) (key : Z * Z)
  : list pretty_midi.Instrument.t * nat :=
  let (instruments, instrument) := st in
  let (instr_id, prog_id) := key in
  let (instruments, instrument) :=
    if 0 <? instr_id then
      (instruments
         ++ [pretty_midi.Instrument.Instrument prog_id (instr_id =? 9)],
       length instruments)
    else (instruments, instrument) in
  (alter (assign_events prog_id (events_at (instr_id, prog_id)
                                   instrument_events))
     instrument instruments,
   instrument).

(** Body of the loop over [sequence.key_signatures].  The KeySignature
    constructor is the library's: the ValueError it raises for a key
    number it refuses is not modelled. *)
Definition encode_key_signature (seq_key : KeySignature.t)
  : pretty_midi.KeySignature.t :=
  let key_number := KeySignature.key seq_key in
  let key_number :=
    match KeySignature.mode seq_key with
    | MINOR => key_number + _PRETTY_MIDI_MAJOR_TO_MINOR_OFFSET
    | MAJOR => key_number
    end in
  pretty_midi.KeySignature.KeySignature key_number
    (KeySignature.time seq_key).

(** [kwargs] *)
Definition initial_tempo_kwarg (sequence : NoteSequence) : option float :=
  match tempos sequence with
  | t0 :: _ =>
      if PrimFloat.eqb (Tempo.time t0) 0%float then Some (Tempo.bpm t0)
      else None
  | [] => None
  end.

Section Encoder.

(** [pm.time_to_tick(time)], which reads the state of [pm]. *)
Variable time_to_tick : pretty_midi.PrettyMIDI -> float -> Z.

(** Body of the loop over [sequence.tempos[1:]].  In
    [pm.resolution * seq_tempo.bpm] the integer resolution is converted to
    a float. *)
Definition populate_tick_scale (seq_tempo : Tempo.t)
  (pm : pretty_midi.PrettyMIDI) : result pretty_midi.PrettyMIDI :=
  tick_scale <- float_div 60%float
                  (float_of_Z (pretty_midi.resolution pm)
                   * Tempo.bpm seq_tempo)%float ;;
  let tick := time_to_tick pm (Tempo.time seq_tempo) in
  Return (add_tick_scale (tick, tick_scale) pm).

Definition sequence_proto_to_pretty_midi (sequence : NoteSequence)
  : result pretty_midi.PrettyMIDI :=
  let pm :=
    pretty_midi.new (ticks_per_beat sequence) (initial_tempo_kwarg sequence) in
  let instrument := pretty_midi.Instrument.Instrument 0 false in
  let pm := set_instruments (pretty_midi.instruments pm ++ [instrument]) pm in
  let pm :=
    fold_left
      (fun pm seq_ts =>
         add_time_signature_change
           (pretty_midi.TimeSignature.TimeSignature
              (TimeSignature.numerator seq_ts)
              (TimeSignature.denominator seq_ts) (TimeSignature.time seq_ts))
           pm)
      (time_signatures sequence) pm in
  let pm :=
    fold_left
      (fun pm seq_key =>
         add_key_signature_change (encode_key_signature seq_key) pm)
      (key_signatures sequence) pm in
  pm <- (if (1 <? length (tempos sequence))%nat
         then for_each (tail (tempos sequence)) populate_tick_scale pm
         else Return pm) ;;
  let instrument_events := gather_events sequence in
  let (instruments, _) :=
    fold_left (attach_events instrument_events)
      (sorted_keys instrument_events) (pretty_midi.instruments pm, 0%nat) in
  Return (set_instruments instruments pm).

End Encoder.

(** ** Vocabulary of the statements *)

(** The PrettyMIDI object [midi_to_sequence_proto] works on, when there is
    one. *)
Definition parsed (parse : string -> option pretty_midi.PrettyMIDI)
  (midi_data : midi_input) : option pretty_midi.PrettyMIDI :=
  match midi_data with
  | Object midi => Some midi
  | Contents s => parse s
  end.

Definition key_number_in_range (midi_key : pretty_midi.KeySignature.t)
  : Prop :=
  0 ≤ pretty_midi.KeySignature.key_number midi_key < 24.

Definition decoded_key_signature (midi_key : pretty_midi.KeySignature.t)
  : KeySignature.t :=
  KeySignature.mk (pretty_midi.KeySignature.time midi_key)
    (pretty_midi.KeySignature.key_number midi_key mod 12)
    (if pretty_midi.KeySignature.key_number midi_key <? 12 then MAJOR
     else MINOR).

Definition decoded_time_signature (ts : pretty_midi.TimeSignature.t)
  : TimeSignature.t :=
  TimeSignature.mk (pretty_midi.TimeSignature.time ts)
    (pretty_midi.TimeSignature.numerator ts)
    (pretty_midi.TimeSignature.denominator ts).

Definition decoded_note (num_instrument program : Z)
  (n : pretty_midi.Note.t) : Note.t :=
  Note.mk num_instrument program (pretty_midi.Note.start n)
    (pretty_midi.Note.end_ n) (pretty_midi.Note.pitch n)
    (pretty_midi.Note.velocity n).

Definition decoded_pitch_bend (num_instrument program : Z)
  (b : pretty_midi.PitchBend.t) : PitchBend.t :=
  PitchBend.mk num_instrument program (pretty_midi.PitchBend.time b)
    (pretty_midi.PitchBend.pitch b).

Definition decoded_control_change (num_instrument program : Z)
  (c : pretty_midi.ControlChange.t) : ControlChange.t :=
  ControlChange.mk num_instrument program (pretty_midi.ControlChange.time c)
    (pretty_midi.ControlChange.number c) (pretty_midi.ControlChange.value c).

(** The events of all instruments, instrument by instrument, each
    instrument's events in their own order, tagged with the instrument's
    position and program. *)
Definition instrument_major {E F} (tag : Z -> Z -> E -> F)
  (events_of : pretty_midi.Instrument.t -> list E)
  (instruments : list pretty_midi.Instrument.t) : list F :=
  mjoin (imap (fun i inst =>
                 map (tag (Z.of_nat i) (pretty_midi.Instrument.program inst))
                   (events_of inst))
           instruments).

(** One step of the running value kept in [sequence.total_time]. *)
Definition update_total_time (t e : float) : float :=
  if negb (truthy t) || PrimFloat.ltb t e then e else t.

(** [t] is the greatest of [ends]. *)
Definition is_maximum (t : float) (ends : list float) : Prop :=
  t ∈ ends ∧ ∀ e, e ∈ ends → PrimFloat.leb e t = true.

(** The sequence the decoder builds from [midi] when no key signature is
    rejected, field by field. *)
Definition decoded_sequence
  (get_tempo_changes : pretty_midi.PrettyMIDI -> list float * list float)
  (midi : pretty_midi.PrettyMIDI) : NoteSequence :=
  let instruments := pretty_midi.instruments midi in
  let decoded_notes :=
    instrument_major decoded_note pretty_midi.Instrument.notes instruments in
  mk (pretty_midi.resolution midi)
    (fold_left update_total_time (map Note.end_time decoded_notes) 0%float)
    (map decoded_time_signature (pretty_midi.time_signature_changes midi))
    (map decoded_key_signature (pretty_midi.key_signature_changes midi))
    (map (fun tb : float * float => Tempo.mk tb.1 tb.2)
       (zip (get_tempo_changes midi).1 (get_tempo_changes midi).2))
    decoded_notes
    (instrument_major decoded_pitch_bend pretty_midi.Instrument.pitch_bends
       instruments)
    (instrument_major decoded_control_change
       pretty_midi.Instrument.control_changes instruments).

(** Vocabulary for the encoder. *)

Definition note_key (n : Note.t) : Z * Z :=
  (Note.instrument n, Note.program n).

Definition bend_key (b : PitchBend.t) : Z * Z :=
  (PitchBend.instrument b, PitchBend.program b).

Definition control_key (c : ControlChange.t) : Z * Z :=
  (ControlChange.instrument c, ControlChange.program c).

Definition encoded_note (n : Note.t) : pretty_midi.Note.t :=
  pretty_midi.Note.Note (Note.velocity n) (Note.pitch n) (Note.start_time n)
    (Note.end_time n).

Definition encoded_bend (b : PitchBend.t) : pretty_midi.PitchBend.t :=
  pretty_midi.PitchBend.PitchBend (PitchBend.bend b) (PitchBend.time b).

Definition encoded_control (c : ControlChange.t)
  : pretty_midi.ControlChange.t :=
  pretty_midi.ControlChange.ControlChange (ControlChange.control_number c)
    (ControlChange.control_value c) (ControlChange.time c).

Definition encoded_time_signature (ts : TimeSignature.t)
  : pretty_midi.TimeSignature.t :=
  pretty_midi.TimeSignature.TimeSignature (TimeSignature.numerator ts)
    (TimeSignature.denominator ts) (TimeSignature.time ts).

(** The keys [(instrument, program)] of all events of a sequence. *)
Definition event_keys (sequence : NoteSequence) : list (Z * Z) :=
  (note_key <$> notes sequence) ++ (bend_key <$> pitch_bends sequence)
  ++ (control_key <$> control_changes sequence).

(** The events of a sequence that carry [key], in sequence order. *)
Definition group (sequence : NoteSequence) (key : Z * Z) : events :=
  mk_events
    (encoded_note <$> filter (λ n, note_key n = key) (notes sequence))
    (encoded_bend <$> filter (λ b, bend_key b = key) (pitch_bends sequence))
    (encoded_control
       <$> filter (λ c, control_key c = key) (control_changes sequence)).

(** The instrument the encoder creates for the group at [key]. *)
Definition group_instrument (sequence : NoteSequence) (key : Z * Z)
  : pretty_midi.Instrument.t :=
  pretty_midi.Instrument.mk key.2 (key.1 =? 9)
    (ev_notes (group sequence key)) (ev_bends (group sequence key))
    (ev_controls (group sequence key)).

(** The first instrument of the output carrying the group at [key]. *)
Definition placeholder_with (sequence : NoteSequence) (key : Z * Z)
  : pretty_midi.Instrument.t :=
  pretty_midi.Instrument.mk key.2 false
    (ev_notes (group sequence key)) (ev_bends (group sequence key))
    (ev_controls (group sequence key)).

(** The output object before the tempo loop. *)
Definition encoded_header (sequence : NoteSequence)
  : pretty_midi.PrettyMIDI :=
  pretty_midi.mk (ticks_per_beat sequence) (initial_tempo_kwarg sequence) []
    (encoded_time_signature <$> time_signatures sequence)
    (encode_key_signature <$> key_signatures sequence)
    [pretty_midi.Instrument.Instrument 0 false].

Definition set_tick_scales (v : list (Z * float))
  (pm : pretty_midi.PrettyMIDI) : pretty_midi.PrettyMIDI :=
  pretty_midi.mk (pretty_midi.resolution pm) (pretty_midi.initial_tempo pm)
    v (pretty_midi.time_signature_changes pm)
    (pretty_midi.key_signature_changes pm) (pretty_midi.instruments pm).

(** [resolution * bpm] is not zero, so [60.0 / (resolution * bpm)] does
    not raise. *)
Definition tempo_divides (resolution : Z) (t : Tempo.t) : Prop :=
  PrimFloat.eqb (float_of_Z resolution * Tempo.bpm t)%float 0%float = false.

Definition set_tempos (v : list Tempo.t) (s : NoteSequence) : NoteSequence :=
  mk (ticks_per_beat s) (total_time s) (time_signatures s)
     (key_signatures s) v (notes s) (pitch_bends s) (control_changes s).

(** The sequence without the events that carry [key]. *)
Definition without_group (key : Z * Z) (s : NoteSequence) : NoteSequence :=
  mk (ticks_per_beat s) (total_time s) (time_signatures s)
     (key_signatures s) (tempos s)
     (filter (λ n, note_key n ≠ key) (notes s))
     (filter (λ b, bend_key b ≠ key) (pitch_bends s))
     (filter (λ c, control_key c ≠ key) (control_changes s)).

Global Instance tempo_divides_dec resolution t :
  Decision (tempo_divides resolution t).
Proof. unfold tempo_divides. apply _. Defined.

(** [keys] lists each key of the sequence's events once, in ascending
    order. *)
Definition distinct_keys_ascending (sequence : NoteSequence)
  (keys : list (Z * Z)) : Prop :=
  StronglySorted key_le keys ∧ NoDup keys
  ∧ ∀ key, key ∈ keys ↔ key ∈ event_keys sequence.

(** [pm.instruments] at the end of the encoder: the instrument created
    first, carrying the group of the last key with an instrument index
    that is not positive (when there is one), followed by one new
    instrument for each key with a positive index. *)
Definition encoded_instruments (sequence : NoteSequence)
  (keys : list (Z * Z)) : list pretty_midi.Instrument.t :=
  from_option (placeholder_with sequence)
    (pretty_midi.Instrument.Instrument 0 false)
    (last (filter (λ key, key.1 ≤ 0) keys))
  :: (group_instrument sequence <$> filter (λ key, 0 < key.1) keys).

(** Case analysis for the comparison of specification floats. *)
Ltac sf_cases :=
  repeat match goal with
    | x : spec_float |- _ => destruct x as [[]|[]| |[] ? ?]
    end;
  simpl; try (discriminate || reflexivity || tauto).

Ltac sf_compare :=
  repeat match goal with
    | |- context [PosDef.Pos.compare_cont Eq ?a ?b] =>
        change (PosDef.Pos.compare_cont Eq a b) with (Pos.compare a b);
        destruct (Pos.compare_spec a b)
    | |- context [Z.compare ?a ?b] => destruct (Z.compare_spec a b)
    end;
  simpl; try (discriminate || reflexivity || lia).

(** ** Sample inputs *)

(** Collaborator stand-ins for the sample runs: every file content parses
    to [midi], and a tempo map with the single default entry. *)
Definition parse_as (midi : pretty_midi.PrettyMIDI)
  : string -> option pretty_midi.PrettyMIDI :=
  fun _ => Some midi.

Definition parse_fails : string -> option pretty_midi.PrettyMIDI :=
  fun _ => None.

Definition default_tempo_changes
  : pretty_midi.PrettyMIDI -> list float * list float :=
  fun _ => ([0%float], [120%float]).

Definition one_file (contents : string) : string -> option string :=
  fun _ => Some contents.

(** Key signatures E-flat major (3) and D minor (14). *)
Definition two_keys_midi : pretty_midi.PrettyMIDI :=
  pretty_midi.mk 220 None [] []
    [pretty_midi.KeySignature.KeySignature 3 0%float;
     pretty_midi.KeySignature.KeySignature 14 1%float]
    [].

(** A key number one past the last minor key. *)
Definition invalid_key_midi : pretty_midi.PrettyMIDI :=
  pretty_midi.mk 220 None [] []
    [pretty_midi.KeySignature.KeySignature 24 0%float] [].

(** Instruments [A: n1, n2] and [B: n3], with [n2] starting before
    [n1]. *)
Definition two_instruments_midi : pretty_midi.PrettyMIDI :=
  pretty_midi.mk 220 None [] [] []
    [pretty_midi.Instrument.mk 5 false
       [pretty_midi.Note.Note 100 60 1%float 2%float;
        pretty_midi.Note.Note 100 62 0.5%float 1%float]
       [pretty_midi.PitchBend.PitchBend 10 0.25%float]
       [];
     pretty_midi.Instrument.mk 7 false
       [pretty_midi.Note.Note 90 64 0%float 3%float]
       [pretty_midi.PitchBend.PitchBend 20 0%float]
       [pretty_midi.ControlChange.ControlChange 64 127 0%float]].

(** One instrument whose first note ends at time 0 and whose second note
    ends before it, at -5. *)
Definition negative_times_midi : pretty_midi.PrettyMIDI :=
  pretty_midi.mk 220 None [] [] []
    [pretty_midi.Instrument.mk 0 false
       [pretty_midi.Note.Note 100 60 (-1)%float 0%float;
        pretty_midi.Note.Note 100 62 (-6)%float (-5)%float]
       [] []].

(** [int(x)] for a finite float: truncation towards zero. *)
Definition int_of_float (x : float) : Z :=
  match Prim2SF x with
  | S754_finite s m e =>
      let v := if 0 <=? e then Z.pos m * 2 ^ e else Z.pos m / 2 ^ (- e) in
      if s then - v else v
  | _ => 0
  end.

(** A stand-in for [pm.time_to_tick] in the sample runs: the tick at the
    tempo the object was constructed with (120 bpm when none was
    passed). *)
Definition constant_tempo_time_to_tick (pm : pretty_midi.PrettyMIDI)
  (time : float) : Z :=
  let tempo := default 120%float (pretty_midi.initial_tempo pm) in
  int_of_float
    (time / (60 / (tempo * float_of_Z (pretty_midi.resolution pm))))%float.

(** Tempos [(0, 120), (2.0, 90)] at resolution 480. *)
Definition two_tempos_sequence : NoteSequence :=
  mk 480 0%float [] [] [Tempo.mk 0%float 120%float; Tempo.mk 2%float 90%float]
    [] [] [].

(** A second tempo entry of 0 bpm. *)
Definition zero_bpm_sequence : NoteSequence :=
  mk 480 0%float [] [] [Tempo.mk 0%float 120%float; Tempo.mk 2%float 0%float]
    [] [] [].

(** A first tempo entry that is not at time 0. *)
Definition late_first_tempo_sequence : NoteSequence :=
  mk 480 0%float [] []
    [Tempo.mk 1%float 100%float; Tempo.mk 2%float 90%float] [] [] [].

(** Notes on [(instrument=0, program=5)] and [(instrument=2, program=5)],
    and one on the drum channel. *)
Definition shared_program_sequence : NoteSequence :=
  mk 220 0%float [] [] []
    [Note.mk 2 5 0%float 1%float 64 90;
     Note.mk 0 5 0%float 1%float 60 100;
     Note.mk 9 0 0%float 1%float 36 110]
    [] [].

(** Instrument 0 with two programs, 1 and 2. *)
Definition two_programs_sequence : NoteSequence :=
  mk 220 0%float [] [] []
    [Note.mk 0 1 0%float 1%float 60 100;
     Note.mk 0 2 1%float 2%float 62 100]
    [PitchBend.mk 0 1 0.5%float 10]
    [ControlChange.mk 0 1 0%float 64 127].

(** ** sequence_proto_to_midi_file *)

Section Writer.

Variable time_to_tick : pretty_midi.PrettyMIDI -> float -> Z.

(** The state of the file system, and [pretty_midi_object.write(path)]
    acting on it. *)
Variable FS : Type.
Variable write : pretty_midi.PrettyMIDI -> string -> FS -> result FS.


End Writer.

(** ** Further vocabulary *)

(** The instrument has a note, a pitch bend or a control change. *)
Definition has_events (inst : pretty_midi.Instrument.t) : Prop :=
  pretty_midi.Instrument.notes inst ≠ []
  ∨ pretty_midi.Instrument.pitch_bends inst ≠ []
  ∨ pretty_midi.Instrument.control_changes inst ≠ [].

Global Instance has_events_dec inst : Decision (has_events inst).
Proof. unfold has_events. apply _. Defined.

(** An instrument at position [e.1] after decoding and encoding again: its
    program and events, and the drum flag of its position. *)
Definition reencoded (e : Z * pretty_midi.Instrument.t)
  : pretty_midi.Instrument.t :=
  pretty_midi.Instrument.mk (pretty_midi.Instrument.program e.2) (e.1 =? 9)
    (pretty_midi.Instrument.notes e.2)
    (pretty_midi.Instrument.pitch_bends e.2)
    (pretty_midi.Instrument.control_changes e.2).

(** The first instrument after decoding and encoding again. *)
Definition reencoded_first (instruments : list pretty_midi.Instrument.t)
  : pretty_midi.Instrument.t :=
  match instruments with
  | inst :: _ =>
      if decide (has_events inst) then
        pretty_midi.Instrument.mk (pretty_midi.Instrument.program inst) false
          (pretty_midi.Instrument.notes inst)
          (pretty_midi.Instrument.pitch_bends inst)
          (pretty_midi.Instrument.control_changes inst)
      else pretty_midi.Instrument.Instrument 0 false
  | [] => pretty_midi.Instrument.Instrument 0 false
  end.

(** The indices of a list of indexed instruments increase strictly. *)
Definition increasing (es : list (Z * pretty_midi.Instrument.t)) : Prop :=
  StronglySorted (λ a b : Z * pretty_midi.Instrument.t, a.1 < b.1) es.

(** The events of indexed instruments, tagged, in order. *)
Definition tagged_events {E F} (tag : Z -> Z -> E -> F)
  (events_of : pretty_midi.Instrument.t -> list E)
  (es : list (Z * pretty_midi.Instrument.t)) : list F :=
  flat_map
    (λ e : Z * pretty_midi.Instrument.t,
       map (tag e.1 (pretty_midi.Instrument.program e.2)) (events_of e.2))
    es.

(** More sample inputs. *)

(** Key numbers 3, then 30 and -1. *)
Definition mixed_keys_midi : pretty_midi.PrettyMIDI :=
  pretty_midi.mk 220 None [] []
    [pretty_midi.KeySignature.KeySignature 3 0%float;
     pretty_midi.KeySignature.KeySignature 30 1%float;
     pretty_midi.KeySignature.KeySignature (-1) 2%float]
    [].

(** A tempo map with three times and two tempos. *)
Definition uneven_tempo_changes
  : pretty_midi.PrettyMIDI -> list float * list float :=
  fun _ => ([0%float; 1%float; 2%float], [120%float; 90%float]).

(** Two time signatures, and three instruments of which the second has no
    events. *)
Definition sparse_instruments_midi : pretty_midi.PrettyMIDI :=
  pretty_midi.mk 480 None []
    [pretty_midi.TimeSignature.TimeSignature 4 4 0%float;
     pretty_midi.TimeSignature.TimeSignature 3 4 8%float]
    [pretty_midi.KeySignature.KeySignature 14 0%float]
    [pretty_midi.Instrument.mk 5 true
       [pretty_midi.Note.Note 100 60 0%float 1%float] [] [];
     pretty_midi.Instrument.mk 6 false [] [] [];
     pretty_midi.Instrument.mk 7 false
       [pretty_midi.Note.Note 90 64 1%float 2%float]
       [pretty_midi.PitchBend.PitchBend 20 1.5%float] []].

(** A sequence with one time signature, one key signature and no events. *)
Definition no_events_sequence : NoteSequence :=
  mk 480 7%float [TimeSignature.mk 0%float 4 4]
    [KeySignature.mk 0%float 2 MINOR] [Tempo.mk 0%float 120%float] [] [] [].


(** ** The decoder's loops *)

Lemma populate_time_signatures_eq l s :
  fold_left (fun s t => populate_time_signature t s) l s
  = mk (ticks_per_beat s) (total_time s)
      (time_signatures s ++ map decoded_time_signature l)
      (key_signatures s) (tempos s) (notes s) (pitch_bends s)
      (control_changes s).
Proof.
  revert s; induction l as [|t l IH]; intros [? ? ? ? ? ? ? ?]; simpl.
  - by rewrite app_nil_r.
  - rewrite IH; simpl. by rewrite <- app_assoc.
Qed.

Lemma populate_tempos_eq l s :
  fold_left (fun s tb => populate_tempo tb s) l s
  = mk (ticks_per_beat s) (total_time s) (time_signatures s)
      (key_signatures s)
      (tempos s ++ map (fun tb => Tempo.mk tb.1 tb.2) l)
      (notes s) (pitch_bends s) (control_changes s).
Proof.
  revert s; induction l as [|t l IH]; intros [? ? ? ? ? ? ? ?]; simpl.
  - by rewrite app_nil_r.
  - rewrite IH; simpl. by rewrite <- app_assoc.
Qed.

Lemma populate_key_signature_in_range midi_key s :
  key_number_in_range midi_key →
  populate_key_signature midi_key s
  = Return (add_key_signature (decoded_key_signature midi_key) s).
Proof.
  unfold key_number_in_range, populate_key_signature, decoded_key_signature.
  destruct midi_key as [k t]; simpl; intros Hk.
  destruct (Z.ltb_spec k 12).
  - replace (k / 12) with 0 by (symmetry; apply Z.div_small; lia).
    reflexivity.
  - replace (k / 12) with 1
      by (apply (Z.div_unique k 12 1 (k - 12)); lia).
    reflexivity.
Qed.

Lemma populate_key_signature_out_of_range midi_key s :
  ¬ key_number_in_range midi_key →
  populate_key_signature midi_key s
  = Raise (MIDIConversionError
             (InvalidMidiMode
                (pretty_midi.KeySignature.key_number midi_key / 12))).
Proof.
  unfold key_number_in_range, populate_key_signature.
  destruct midi_key as [k t]; simpl; intros Hk.
  pose proof (Z.div_mod k 12 ltac:(lia)) as Hdm.
  pose proof (Z.mod_pos_bound k 12 ltac:(lia)) as Hm.
  destruct (Z.eqb_spec (k / 12) 0); [lia|].
  destruct (Z.eqb_spec (k / 12) 1); [lia|].
  reflexivity.
Qed.

Lemma populate_key_signatures_in_range l s :
  Forall key_number_in_range l →
  for_each l populate_key_signature s
  = Return (mk (ticks_per_beat s) (total_time s) (time_signatures s)
              (key_signatures s ++ map decoded_key_signature l)
              (tempos s) (notes s) (pitch_bends s) (control_changes s)).
Proof.
  intros Hl; revert s; induction Hl as [|k l Hk _ IH];
    intros [? ? ? ? ? ? ? ?]; simpl.
  - by rewrite app_nil_r.
  - rewrite populate_key_signature_in_range by done. simpl.
    rewrite IH; simpl. by rewrite <- app_assoc.
Qed.

Lemma populate_key_signatures_out_of_range l s :
  Exists (fun k => ¬ key_number_in_range k) l →
  ∃ midi_mode,
    for_each l populate_key_signature s
    = Raise (MIDIConversionError (InvalidMidiMode midi_mode)).
Proof.
  intros Hl; revert s; induction l as [|k l IH]; intros s.
  - by apply Exists_nil in Hl.
  - simpl. destruct (decide (key_number_in_range k)) as [Hk|Hk].
    + rewrite populate_key_signature_in_range by done. simpl.
      apply IH. apply Exists_cons in Hl as [?|?]; done.
    + rewrite populate_key_signature_out_of_range by done. simpl. eauto.
Qed.

Lemma set_total_time_id s : set_total_time (total_time s) s = s.
Proof. by destruct s. Qed.

Lemma gather_notes_eq program num_instrument l s g :
  fold_left (fun st n => gather_note program num_instrument n st) l (s, g)
  = (set_total_time
       (fold_left update_total_time (map pretty_midi.Note.end_ l)
          (total_time s)) s,
     mk_gathered
       (midi_notes g ++ map (fun n => (program, num_instrument, n)) l)
       (midi_pitch_bends g) (midi_control_changes g)).
Proof.
  revert s g; induction l as [|n l IH]; intros s [? ? ?]; simpl.
  - by rewrite set_total_time_id, app_nil_r.
  - unfold update_total_time at 2.
    destruct (negb (truthy (total_time s))
              || PrimFloat.ltb (total_time s) (pretty_midi.Note.end_ n));
      rewrite IH; destruct s; simpl; by rewrite <- app_assoc.
Qed.

Lemma gather_pitch_bends_eq program num_instrument l s g :
  fold_left (fun st b => gather_pitch_bend program num_instrument b st) l
    (s, g)
  = (s,
     mk_gathered (midi_notes g)
       (midi_pitch_bends g ++ map (fun b => (program, num_instrument, b)) l)
       (midi_control_changes g)).
Proof.
  revert g; induction l as [|b l IH]; intros [? ? ?]; simpl.
  - by rewrite app_nil_r.
  - rewrite IH; simpl. by rewrite <- app_assoc.
Qed.

Lemma gather_control_changes_eq program num_instrument l s g :
  fold_left
    (fun st c => gather_control_change program num_instrument c st) l (s, g)
  = (s,
     mk_gathered (midi_notes g) (midi_pitch_bends g)
       (midi_control_changes g
          ++ map (fun c => (program, num_instrument, c)) l)).
Proof.
  revert g; induction l as [|c l IH]; intros [? ? ?]; simpl.
  - by rewrite app_nil_r.
  - rewrite IH; simpl. by rewrite <- app_assoc.
Qed.

Lemma gather_instruments_eq es s g :
  fold_left gather_instrument es (s, g)
  = (set_total_time
       (fold_left update_total_time
          (flat_map
             (fun e : Z * pretty_midi.Instrument.t =>
                map pretty_midi.Note.end_ (pretty_midi.Instrument.notes e.2))
             es)
          (total_time s)) s,
     mk_gathered
       (midi_notes g
          ++ flat_map
               (fun e : Z * pretty_midi.Instrument.t =>
                  map (fun n => (pretty_midi.Instrument.program e.2, e.1, n))
                    (pretty_midi.Instrument.notes e.2))
               es)
       (midi_pitch_bends g
          ++ flat_map
               (fun e : Z * pretty_midi.Instrument.t =>
                  map (fun b => (pretty_midi.Instrument.program e.2, e.1, b))
                    (pretty_midi.Instrument.pitch_bends e.2))
               es)
       (midi_control_changes g
          ++ flat_map
               (fun e : Z * pretty_midi.Instrument.t =>
                  map (fun c => (pretty_midi.Instrument.program e.2, e.1, c))
                    (pretty_midi.Instrument.control_changes e.2))
               es)).
Proof.
  revert s g; induction es as [|[i inst] es IH]; intros s [gn gb gc].
  - simpl. by rewrite set_total_time_id, !app_nil_r.
  - cbn [fold_left gather_instrument].
    rewrite gather_notes_eq, gather_pitch_bends_eq,
      gather_control_changes_eq, IH.
    cbn [flat_map midi_notes midi_pitch_bends midi_control_changes fst snd].
    rewrite fold_left_app, <- !app_assoc. by destruct s.
Qed.

Lemma copy_notes_eq l s :
  fold_left copy_note l s
  = mk (ticks_per_beat s) (total_time s) (time_signatures s)
      (key_signatures s) (tempos s)
      (notes s
         ++ map (fun e : Z * Z * pretty_midi.Note.t =>
                   decoded_note e.1.2 e.1.1 e.2) l)
      (pitch_bends s) (control_changes s).
Proof.
  revert s; induction l as [|[[p i] n] l IH]; intros [? ? ? ? ? ? ? ?]; simpl.
  - by rewrite app_nil_r.
  - rewrite IH; simpl. by rewrite <- app_assoc.
Qed.

Lemma copy_pitch_bends_eq l s :
  fold_left copy_pitch_bend l s
  = mk (ticks_per_beat s) (total_time s) (time_signatures s)
      (key_signatures s) (tempos s) (notes s)
      (pitch_bends s
         ++ map (fun e : Z * Z * pretty_midi.PitchBend.t =>
                   decoded_pitch_bend e.1.2 e.1.1 e.2) l)
      (control_changes s).
Proof.
  revert s; induction l as [|[[p i] b] l IH]; intros [? ? ? ? ? ? ? ?]; simpl.
  - by rewrite app_nil_r.
  - rewrite IH; simpl. by rewrite <- app_assoc.
Qed.

Lemma copy_control_changes_eq l s :
  fold_left copy_control_change l s
  = mk (ticks_per_beat s) (total_time s) (time_signatures s)
      (key_signatures s) (tempos s) (notes s) (pitch_bends s)
      (control_changes s
         ++ map (fun e : Z * Z * pretty_midi.ControlChange.t =>
                   decoded_control_change e.1.2 e.1.1 e.2) l).
Proof.
  revert s; induction l as [|[[p i] c] l IH]; intros [? ? ? ? ? ? ? ?]; simpl.
  - by rewrite app_nil_r.
  - rewrite IH; simpl. by rewrite <- app_assoc.
Qed.

(** The triples gathered over [enumerate(midi.instruments)] and then
    copied are the instrument-major list. *)
Lemma copied_instrument_major {E F} (tag : Z -> Z -> E -> F)
    (events_of : pretty_midi.Instrument.t -> list E) start instruments :
  map (fun e : Z * Z * E => tag e.1.2 e.1.1 e.2)
    (flat_map
       (fun e : Z * pretty_midi.Instrument.t =>
          map (fun x => (pretty_midi.Instrument.program e.2, e.1, x))
            (events_of e.2))
       (enumerate_from start instruments))
  = mjoin (imap (fun i inst =>
                   map (tag (start + Z.of_nat i)
                          (pretty_midi.Instrument.program inst))
                     (events_of inst))
             instruments).
Proof.
  revert start; induction instruments as [|inst l IH]; intros start.
  - reflexivity.
  - cbn [enumerate_from flat_map imap mjoin list_join fst snd].
    rewrite map_app, map_map, IH, Z.add_0_r. cbn [fst snd]. f_equal.
    f_equal. apply imap_ext. intros i x _. simpl.
    by replace (start + 1 + Z.of_nat i) with (start + Z.of_nat (S i))
      by lia.
Qed.

(** The value left in [sequence.total_time] is the running value over the
    end times in the order the notes are copied. *)
Lemma gathered_end_times start instruments :
  flat_map
    (fun e : Z * pretty_midi.Instrument.t =>
       map pretty_midi.Note.end_ (pretty_midi.Instrument.notes e.2))
    (enumerate_from start instruments)
  = map Note.end_time
      (mjoin (imap (fun i inst =>
                      map (decoded_note (start + Z.of_nat i)
                             (pretty_midi.Instrument.program inst))
                        (pretty_midi.Instrument.notes inst))
                instruments)).
Proof.
  revert start; induction instruments as [|inst l IH]; intros start.
  - reflexivity.
  - cbn [enumerate_from flat_map imap mjoin list_join fst snd].
    rewrite map_app, map_map, IH. cbn [Note.end_time decoded_note]. f_equal.
    f_equal. f_equal. apply imap_ext. intros i x _. simpl.
    by replace (start + 1 + Z.of_nat i) with (start + Z.of_nat (S i))
      by lia.
Qed.

(** ** The decoder as a whole *)

Lemma convert_in_range get_tempo_changes midi :
  Forall key_number_in_range (pretty_midi.key_signature_changes midi) →
  convert get_tempo_changes midi
  = Return (decoded_sequence get_tempo_changes midi).
Proof.
  intros Hk. unfold convert, decoded_sequence, instrument_major, enumerate.
  rewrite populate_time_signatures_eq.
  rewrite populate_key_signatures_in_range by done.
  cbn [bind]. destruct (get_tempo_changes midi) as [times bpms].
  rewrite populate_tempos_eq, gather_instruments_eq.
  rewrite copy_notes_eq, copy_pitch_bends_eq, copy_control_changes_eq.
  cbn -[zip]. rewrite !copied_instrument_major, gathered_end_times.
  reflexivity.
Qed.

Lemma convert_out_of_range get_tempo_changes midi :
  Exists (fun k => ¬ key_number_in_range k)
    (pretty_midi.key_signature_changes midi) →
  ∃ midi_mode,
    convert get_tempo_changes midi
    = Raise (MIDIConversionError (InvalidMidiMode midi_mode)).
Proof.
  intros Hk. unfold convert.
  destruct (populate_key_signatures_out_of_range _
              (fold_left (fun s t => populate_time_signature t s)
                 (pretty_midi.time_signature_changes midi)
                 (set_ticks_per_beat (pretty_midi.resolution midi)
                    music_pb2.new)) Hk) as [m Hm].
  exists m. by rewrite Hm.
Qed.

Lemma midi_to_sequence_proto_parsed parse get_tempo_changes midi_data
    continue_on_exception midi :
  parsed parse midi_data = Some midi →
  midi_to_sequence_proto parse get_tempo_changes midi_data
    continue_on_exception
  = (sequence <- convert get_tempo_changes midi ;; Return (Some sequence)).
Proof.
  destruct midi_data as [s|m]; simpl; intros H.
  - by rewrite H.
  - by inversion H.
Qed.

Lemma midi_to_sequence_proto_returns parse get_tempo_changes midi_data
    continue_on_exception midi r :
  parsed parse midi_data = Some midi →
  midi_to_sequence_proto parse get_tempo_changes midi_data
    continue_on_exception = Return r →
  Forall key_number_in_range (pretty_midi.key_signature_changes midi)
  ∧ r = Some (decoded_sequence get_tempo_changes midi).
Proof.
  intros Hp. rewrite (midi_to_sequence_proto_parsed _ _ _ _ _ Hp).
  destruct (decide (Forall key_number_in_range
                      (pretty_midi.key_signature_changes midi)))
    as [Hk|Hk].
  - rewrite convert_in_range by done. simpl. intros [= <-]. done.
  - apply not_Forall_Exists in Hk; [|apply _].
    destruct (convert_out_of_range get_tempo_changes midi Hk) as [m Hm].
    rewrite Hm. discriminate.
Qed.

(** ** Claims about the decoder *)

(** C1. When every key number of the input lies in [0, 23] the decoder
    returns a sequence whose key signatures are, entry by entry, pitch
    class [key_number mod 12] with mode MAJOR below 12 and MINOR from 12
    on; when some key number is 24 or more, or negative, it raises
    MIDIConversionError('Invalid midi_mode ...'), whatever
    [continue_on_exception] is. *)
Theorem C1_key_signature_decode parse get_tempo_changes midi_data
    continue_on_exception midi :
  parsed parse midi_data = Some midi →
  (Forall (fun k => 0 ≤ pretty_midi.KeySignature.key_number k < 24)
     (pretty_midi.key_signature_changes midi) →
   ∃ sequence,
     midi_to_sequence_proto parse get_tempo_changes midi_data
       continue_on_exception = Return (Some sequence)
     ∧ key_signatures sequence
       = map (fun k =>
                KeySignature.mk (pretty_midi.KeySignature.time k)
                  (pretty_midi.KeySignature.key_number k mod 12)
                  (if pretty_midi.KeySignature.key_number k <? 12
                   then MAJOR else MINOR))
           (pretty_midi.key_signature_changes midi))
  ∧ (Exists (fun k => pretty_midi.KeySignature.key_number k < 0
                      ∨ 24 ≤ pretty_midi.KeySignature.key_number k)
       (pretty_midi.key_signature_changes midi) →
     ∃ midi_mode,
       midi_to_sequence_proto parse get_tempo_changes midi_data
         continue_on_exception
       = Raise (MIDIConversionError (InvalidMidiMode midi_mode))).
Proof.
  intros Hp. rewrite (midi_to_sequence_proto_parsed _ _ _ _ _ Hp). split.
  - intros Hk. rewrite convert_in_range by done. simpl. eauto.
  - intros Hk.
    destruct (convert_out_of_range get_tempo_changes midi) as [m Hm].
    { eapply Exists_impl; [exact Hk|].
      unfold key_number_in_range. intros k ?. simpl in *. lia. }
    exists m. by rewrite Hm.
Qed.

Lemma C1_key_signature_decode_witness :
  ∃ sequence,
    midi_to_sequence_proto parse_fails default_tempo_changes
      (Object two_keys_midi) true = Return (Some sequence)
    ∧ key_signatures sequence
      = [KeySignature.mk 0%float 3 MAJOR; KeySignature.mk 1%float 2 MINOR].
Proof.
  apply (C1_key_signature_decode parse_fails default_tempo_changes
           (Object two_keys_midi) true two_keys_midi eq_refl).
  repeat constructor; simpl; lia.
Defined.

(** C2, as the code has it.  For an input with an out-of-range key
    number, [midi_to_sequence_proto] raises the invalid-mode
    MIDIConversionError whether or not [continue_on_exception] is set.
    [midi_file_to_sequence_proto] raises it (wrapped in a new
    MIDIConversionError) when [continue_on_exception] is false; when it is
    true its [except MIDIConversionError] clause returns None. *)
Theorem C2_invalid_key_mode_propagation parse get_tempo_changes gfile_read
    midi_file midi_as_string midi :
  gfile_read midi_file = Some midi_as_string →
  parse midi_as_string = Some midi →
  Exists (fun k => pretty_midi.KeySignature.key_number k < 0
                   ∨ 24 ≤ pretty_midi.KeySignature.key_number k)
    (pretty_midi.key_signature_changes midi) →
  ∃ midi_mode,
    (∀ continue_on_exception,
       midi_to_sequence_proto parse get_tempo_changes (Object midi)
         continue_on_exception
       = Raise (MIDIConversionError (InvalidMidiMode midi_mode)))
    ∧ (∀ continue_on_exception,
         midi_to_sequence_proto parse get_tempo_changes
           (Contents midi_as_string) continue_on_exception
         = Raise (MIDIConversionError (InvalidMidiMode midi_mode)))
    ∧ midi_file_to_sequence_proto parse get_tempo_changes gfile_read
        midi_file false
      = Raise (MIDIConversionError (Wrapped (InvalidMidiMode midi_mode)))
    ∧ midi_file_to_sequence_proto parse get_tempo_changes gfile_read
        midi_file true
      = Return None.
Proof.
  intros Hf Hp Hk.
  destruct (convert_out_of_range get_tempo_changes midi) as [m Hm].
  { eapply Exists_impl; [exact Hk|].
    unfold key_number_in_range. intros k ?. simpl in *. lia. }
  exists m. unfold midi_file_to_sequence_proto. rewrite Hf. simpl.
  rewrite Hp, Hm. simpl. done.
Qed.

Lemma C2_invalid_key_mode_propagation_witness :
  ∃ midi_mode,
    midi_file_to_sequence_proto (parse_as invalid_key_midi)
      default_tempo_changes (one_file "MThd") "song.mid" false
    = Raise (MIDIConversionError (Wrapped (InvalidMidiMode midi_mode)))
    ∧ midi_file_to_sequence_proto (parse_as invalid_key_midi)
        default_tempo_changes (one_file "MThd") "song.mid" true
      = Return None.
Proof.
  destruct (C2_invalid_key_mode_propagation (parse_as invalid_key_midi)
              default_tempo_changes (one_file "MThd") "song.mid" "MThd"
              invalid_key_midi eq_refl eq_refl) as (m & _ & _ & H1 & H2).
  - constructor. simpl. lia.
  - exists m. split; [exact H1 | exact H2].
Defined.

(** C2 as stated fails: a file whose contents parse to a MIDI object with
    key number 24, decoded with [continue_on_exception=True], yields None
    from [midi_file_to_sequence_proto] instead of the exception. *)
Lemma C2_file_suppresses_invalid_key_mode :
  pretty_midi.key_signature_changes invalid_key_midi
  = [pretty_midi.KeySignature.KeySignature 24 0%float]
  ∧ midi_file_to_sequence_proto (parse_as invalid_key_midi)
      default_tempo_changes (one_file "MThd") "song.mid" true
    = Return None.
Proof. split; reflexivity. Qed.

(** C6. For file contents the parser rejects, [midi_to_sequence_proto]
    returns None without raising when [continue_on_exception] is true, and
    raises MIDIConversionError('Midi decoding error ...') when it is
    false. *)
Theorem C6_unparseable_input parse get_tempo_changes midi_data :
  parse midi_data = None →
  midi_to_sequence_proto parse get_tempo_changes (Contents midi_data) true
  = Return None
  ∧ midi_to_sequence_proto parse get_tempo_changes (Contents midi_data)
      false
    = Raise (MIDIConversionError MidiDecodingError).
Proof. intros H. simpl. by rewrite H. Qed.

Lemma C6_unparseable_input_witness :
  midi_to_sequence_proto parse_fails default_tempo_changes
    (Contents "not a midi file") true
  = Return None
  ∧ midi_to_sequence_proto parse_fails default_tempo_changes
      (Contents "not a midi file") false
    = Raise (MIDIConversionError MidiDecodingError).
Proof.
  apply (C6_unparseable_input parse_fails default_tempo_changes
           "not a midi file" eq_refl).
Defined.

(** C4. Whenever the decoder returns a sequence, its notes are the notes
    of the first instrument in their original order, then those of the
    second, and so on, each tagged with its instrument's position and
    program; nothing is reordered by time.  Pitch bends and control
    changes are laid out the same way.  The decoder does return a sequence
    when the key numbers are in range. *)
Theorem C4_instrument_major_order parse get_tempo_changes midi_data
    continue_on_exception midi :
  parsed parse midi_data = Some midi →
  (Forall key_number_in_range (pretty_midi.key_signature_changes midi) →
   ∃ sequence,
     midi_to_sequence_proto parse get_tempo_changes midi_data
       continue_on_exception = Return (Some sequence))
  ∧ (∀ r,
       midi_to_sequence_proto parse get_tempo_changes midi_data
         continue_on_exception = Return r →
       ∃ sequence,
         r = Some sequence
         ∧ notes sequence
           = mjoin (imap (fun i inst =>
                            map (decoded_note (Z.of_nat i)
                                   (pretty_midi.Instrument.program inst))
                              (pretty_midi.Instrument.notes inst))
                      (pretty_midi.instruments midi))
         ∧ pitch_bends sequence
           = mjoin (imap (fun i inst =>
                            map (decoded_pitch_bend (Z.of_nat i)
                                   (pretty_midi.Instrument.program inst))
                              (pretty_midi.Instrument.pitch_bends inst))
                      (pretty_midi.instruments midi))
         ∧ control_changes sequence
           = mjoin (imap (fun i inst =>
                            map (decoded_control_change (Z.of_nat i)
                                   (pretty_midi.Instrument.program inst))
                              (pretty_midi.Instrument.control_changes inst))
                      (pretty_midi.instruments midi))).
Proof.
  intros Hp. split.
  - intros Hk. rewrite (midi_to_sequence_proto_parsed _ _ _ _ _ Hp).
    rewrite convert_in_range by done. simpl. eauto.
  - intros r Hr.
    destruct (midi_to_sequence_proto_returns _ _ _ _ _ _ Hp Hr) as [_ ->].
    eexists. split; [reflexivity|]. done.
Qed.

Lemma C4_instrument_major_order_witness :
  ∃ sequence,
    midi_to_sequence_proto parse_fails default_tempo_changes
      (Object two_instruments_midi) false = Return (Some sequence)
    ∧ notes sequence
      = [Note.mk 0 5 1%float 2%float 60 100;
         Note.mk 0 5 0.5%float 1%float 62 100;
         Note.mk 1 7 0%float 3%float 64 90]
    ∧ pitch_bends sequence
      = [PitchBend.mk 0 5 0.25%float 10; PitchBend.mk 1 7 0%float 20]
    ∧ control_changes sequence = [ControlChange.mk 1 7 0%float 64 127].
Proof.
  destruct (C4_instrument_major_order parse_fails default_tempo_changes
              (Object two_instruments_midi) false two_instruments_midi
              eq_refl) as [Hret Hord].
  destruct (Hret ltac:(constructor)) as [sequence Hs].
  destruct (Hord _ Hs) as (sequence' & [= <-] & Hn & Hb & Hc).
  exists sequence. split; [exact Hs|]. split; [exact Hn|].
  split; [exact Hb | exact Hc].
Defined.

(** C3 at a failing input.  With notes ending at 0 and then at -5, the
    decoder leaves -5 in [total_time]: the value 0 reached after the first
    note reads as "not set" in [not sequence.total_time], so the second
    note overwrites it.  The greatest end time is 0. *)
Theorem C3_total_time_zero_then_negative parse get_tempo_changes
    continue_on_exception :
  ∃ sequence,
    midi_to_sequence_proto parse get_tempo_changes
      (Object negative_times_midi) continue_on_exception
    = Return (Some sequence)
    ∧ map Note.end_time (notes sequence) = [0%float; (-5)%float]
    ∧ total_time sequence = (-5)%float
    ∧ ¬ is_maximum (total_time sequence)
          (map Note.end_time (notes sequence)).
Proof.
  exists (decoded_sequence get_tempo_changes negative_times_midi).
  split.
  - rewrite (midi_to_sequence_proto_parsed _ _ _ _ negative_times_midi)
      by done.
    rewrite convert_in_range by constructor. done.
  - split; [reflexivity|]. split; [reflexivity|].
    intros [_ Hmax]. specialize (Hmax 0%float). simpl in Hmax.
    discriminate Hmax. by left.
Qed.

(** ** The order on floats, and [total_time] on non-negative end times *)

Lemma SFleb_trans x y z :
  SFleb x y = true → SFleb y z = true → SFleb x z = true.
Proof. unfold SFleb, SFcompare. sf_cases. all: sf_compare. Qed.

Lemma SFleb_refl_of_bounded a x : SFleb a x = true → SFleb x x = true.
Proof. unfold SFleb, SFcompare. sf_cases. all: sf_compare. Qed.

Lemma SFleb_of_not_ltb a b x y :
  SFleb a x = true → SFleb b y = true → SFltb x y = false →
  SFleb y x = true.
Proof. unfold SFleb, SFltb, SFcompare. sf_cases. all: sf_compare. Qed.

Lemma SFleb_of_eqb x y z :
  SFeqb x z = true → SFleb z y = true → SFleb x y = true.
Proof. unfold SFleb, SFeqb, SFcompare. sf_cases. all: sf_compare. Qed.

Lemma float_leb_trans x y z :
  PrimFloat.leb x y = true → PrimFloat.leb y z = true →
  PrimFloat.leb x z = true.
Proof. rewrite !FloatAxioms.leb_spec. apply SFleb_trans. Qed.

Lemma float_leb_refl a x :
  PrimFloat.leb a x = true → PrimFloat.leb x x = true.
Proof. rewrite !FloatAxioms.leb_spec. apply SFleb_refl_of_bounded. Qed.

Lemma float_ltb_leb x y :
  PrimFloat.ltb x y = true → PrimFloat.leb x y = true.
Proof.
  rewrite FloatAxioms.ltb_spec, FloatAxioms.leb_spec. unfold SFltb, SFleb.
  by destruct (SFcompare _ _) as [[]|].
Qed.

Lemma float_leb_of_not_ltb a b x y :
  PrimFloat.leb a x = true → PrimFloat.leb b y = true →
  PrimFloat.ltb x y = false → PrimFloat.leb y x = true.
Proof. rewrite !FloatAxioms.leb_spec, FloatAxioms.ltb_spec. apply SFleb_of_not_ltb. Qed.

Lemma float_leb_of_eqb x y z :
  PrimFloat.eqb x z = true → PrimFloat.leb z y = true →
  PrimFloat.leb x y = true.
Proof. rewrite !FloatAxioms.leb_spec, FloatAxioms.eqb_spec. apply SFleb_of_eqb. Qed.

(** One step of the running value, from a non-negative value on a
    non-negative end time, is their maximum. *)
Lemma update_total_time_nonnegative t e :
  PrimFloat.leb 0 t = true → PrimFloat.leb 0 e = true →
  PrimFloat.leb 0 (update_total_time t e) = true
  ∧ PrimFloat.leb t (update_total_time t e) = true
  ∧ PrimFloat.leb e (update_total_time t e) = true
  ∧ (update_total_time t e = t ∨ update_total_time t e = e)
  ∧ (PrimFloat.eqb t 0 = true → update_total_time t e = e).
Proof.
  intros Ht He. unfold update_total_time, truthy.
  destruct (PrimFloat.eqb t 0) eqn:Hz; simpl.
  - repeat split; eauto using float_leb_of_eqb, float_leb_refl.
  - destruct (PrimFloat.ltb t e) eqn:Hlt.
    + repeat split; try discriminate;
        eauto using float_ltb_leb, float_leb_refl.
    + repeat split; try discriminate;
        eauto using float_leb_of_not_ltb, float_leb_refl.
Qed.

Lemma running_total_time_nonnegative ends t :
  PrimFloat.leb 0 t = true →
  Forall (λ e, PrimFloat.leb 0 e = true) ends →
  PrimFloat.leb t (fold_left update_total_time ends t) = true
  ∧ Forall (λ e, PrimFloat.leb e (fold_left update_total_time ends t) = true)
      ends
  ∧ (fold_left update_total_time ends t = t
     ∨ fold_left update_total_time ends t ∈ ends)
  ∧ (PrimFloat.eqb t 0 = true → ends ≠ [] →
     fold_left update_total_time ends t ∈ ends).
Proof.
  intros Ht Hends; revert t Ht.
  induction Hends as [|e ends He _ IH]; intros t Ht.
  - simpl. repeat split; eauto using float_leb_refl. done.
  - destruct (update_total_time_nonnegative t e Ht He)
      as (H0 & Htle & Hele & Hcase & Hzero).
    destruct (IH _ H0) as (Hle & Hall & Hin & _). cbn [fold_left].
    assert (fold_left update_total_time ends (update_total_time t e) = t
            ∨ fold_left update_total_time ends (update_total_time t e)
              ∈ e :: ends) as Hin'.
    { destruct Hin as [->|Hin]; [|right; by right].
      destruct Hcase as [->| ->]; [by left | right; by left]. }
    repeat split; eauto using float_leb_trans.
    intros Hz _. destruct Hin as [->|Hin]; [|by right].
    rewrite (Hzero Hz). by left.
Qed.

(** X6. On inputs whose notes all end at non-negative times the decoder does
    leave the greatest end time in [total_time], and 0 when there are no
    notes. *)
Theorem total_time_of_nonnegative_end_times parse get_tempo_changes
    midi_data continue_on_exception midi sequence :
  parsed parse midi_data = Some midi →
  midi_to_sequence_proto parse get_tempo_changes midi_data
    continue_on_exception = Return (Some sequence) →
  Forall (λ n, PrimFloat.leb 0 (Note.end_time n) = true) (notes sequence) →
  (notes sequence = [] → total_time sequence = 0%float)
  ∧ (notes sequence ≠ [] →
     is_maximum (total_time sequence) (Note.end_time <$> notes sequence)).
Proof.
  intros Hp Hs Hends.
  destruct (midi_to_sequence_proto_returns _ _ _ _ _ _ Hp Hs) as [_ [= ->]].
  cbn [decoded_sequence total_time notes] in *.
  set (ns := instrument_major decoded_note pretty_midi.Instrument.notes
               (pretty_midi.instruments midi)) in *.
  split; [by intros ->|]. intros Hne.
  destruct (running_total_time_nonnegative (map Note.end_time ns) 0%float)
    as (_ & Hall & _ & Hin).
  { reflexivity. }
  { clear -Hends. induction Hends; constructor; done. }
  split.
  - apply Hin; [reflexivity|]. by destruct ns.
  - intros e He. by apply (proj1 (Forall_forall _ _) Hall).
Qed.

(** ** The encoder's loops *)

Lemma populate_time_signature_changes_eq l pm :
  fold_left
    (fun pm seq_ts =>
       add_time_signature_change
         (pretty_midi.TimeSignature.TimeSignature
            (TimeSignature.numerator seq_ts)
            (TimeSignature.denominator seq_ts) (TimeSignature.time seq_ts))
         pm) l pm
  = pretty_midi.mk (pretty_midi.resolution pm)
      (pretty_midi.initial_tempo pm) (pretty_midi.tick_scales pm)
      (pretty_midi.time_signature_changes pm
         ++ (encoded_time_signature <$> l))
      (pretty_midi.key_signature_changes pm) (pretty_midi.instruments pm).
Proof.
  revert pm; induction l as [|t l IH]; intros [? ? ? ? ? ?]; simpl.
  - by rewrite app_nil_r.
  - rewrite IH; simpl. by rewrite <- app_assoc.
Qed.

Lemma populate_key_signature_changes_eq l pm :
  fold_left
    (fun pm seq_key =>
       add_key_signature_change (encode_key_signature seq_key) pm) l pm
  = pretty_midi.mk (pretty_midi.resolution pm)
      (pretty_midi.initial_tempo pm) (pretty_midi.tick_scales pm)
      (pretty_midi.time_signature_changes pm)
      (pretty_midi.key_signature_changes pm
         ++ (encode_key_signature <$> l))
      (pretty_midi.instruments pm).
Proof.
  revert pm; induction l as [|t l IH]; intros [? ? ? ? ? ?]; simpl.
  - by rewrite app_nil_r.
  - rewrite IH; simpl. by rewrite <- app_assoc.
Qed.

Lemma populate_tick_scales_returns time_to_tick l pm :
  Forall (tempo_divides (pretty_midi.resolution pm)) l →
  ∃ new,
    for_each l (populate_tick_scale time_to_tick) pm
    = Return (set_tick_scales (pretty_midi.tick_scales pm ++ new) pm)
    ∧ length new = length l
    ∧ ∀ i t, l !! i = Some t →
        new !! i
        = Some (time_to_tick
                  (set_tick_scales
                     (pretty_midi.tick_scales pm ++ take i new) pm)
                  (Tempo.time t),
                (60 / (float_of_Z (pretty_midi.resolution pm)
                       * Tempo.bpm t))%float).
Proof.
  intros Hl; revert pm Hl; induction l as [|t l IH]; intros pm Hl.
  - exists []. simpl. rewrite app_nil_r. split; [by destruct pm|].
    split; [done|]. intros i t Hi. by rewrite lookup_nil in Hi.
  - apply Forall_cons in Hl as [Ht Hl]. simpl.
    unfold populate_tick_scale at 1, float_div. rewrite Ht. simpl.
    set (b := (time_to_tick pm (Tempo.time t),
               (60 / (float_of_Z (pretty_midi.resolution pm)
                      * Tempo.bpm t))%float)).
    destruct (IH (add_tick_scale b pm) Hl) as (new & Hnew & Hlen & Hnth).
    exists (b :: new). rewrite Hnew. split; [|split].
    + destruct pm; simpl. by rewrite <- app_assoc.
    + simpl. by rewrite Hlen.
    + intros [|i] t' Hi; simpl in *.
      * injection Hi as <-. rewrite app_nil_r. by destruct pm.
      * rewrite (Hnth i t' Hi). destruct pm; simpl.
        by rewrite <- app_assoc.
Qed.

Lemma populate_tick_scales_raises time_to_tick l pm :
  Exists (λ t, ¬ tempo_divides (pretty_midi.resolution pm) t) l →
  for_each l (populate_tick_scale time_to_tick) pm = Raise ZeroDivisionError.
Proof.
  intros Hl; revert pm Hl; induction l as [|t l IH]; intros pm Hl.
  - by apply Exists_nil in Hl.
  - simpl. unfold populate_tick_scale at 1, float_div.
    destruct (PrimFloat.eqb
                (float_of_Z (pretty_midi.resolution pm) * Tempo.bpm t) 0)
      eqn:Ht; [done|].
    simpl. apply IH. apply Exists_cons in Hl as [Hl|Hl]; [|done].
    by destruct Hl.
Qed.

Lemma events_at_insert (key key' : Z * Z) (e : events)
    (m : gmap (Z * Z) events) :
  events_at key (<[key' := e]> m)
  = if decide (key' = key) then e else events_at key m.
Proof.
  unfold events_at. rewrite lookup_insert. by case_decide.
Qed.

Lemma events_eta (e : events) : mk_events (ev_notes e) (ev_bends e) (ev_controls e) = e.
Proof. by destruct e. Qed.

Lemma group_notes_eq (l : list Note.t) (m : gmap (Z * Z) events)
    (key : Z * Z) :
  events_at key (fold_left group_note l m)
  = mk_events
      (ev_notes (events_at key m)
         ++ (encoded_note <$> filter (λ n, note_key n = key) l))
      (ev_bends (events_at key m)) (ev_controls (events_at key m)).
Proof.
  revert m; induction l as [|n l IH]; intros m; simpl.
  - by rewrite app_nil_r, events_eta.
  - rewrite IH. unfold group_note. rewrite events_at_insert.
    fold (note_key n). rewrite filter_cons.
    destruct (decide (note_key n = key)) as [->|]; simpl; [|done].
    by rewrite <- app_assoc.
Qed.

Lemma group_bends_eq (l : list PitchBend.t) (m : gmap (Z * Z) events)
    (key : Z * Z) :
  events_at key (fold_left group_bend l m)
  = mk_events (ev_notes (events_at key m))
      (ev_bends (events_at key m)
         ++ (encoded_bend <$> filter (λ b, bend_key b = key) l))
      (ev_controls (events_at key m)).
Proof.
  revert m; induction l as [|b l IH]; intros m; simpl.
  - by rewrite app_nil_r, events_eta.
  - rewrite IH. unfold group_bend. rewrite events_at_insert.
    fold (bend_key b). rewrite filter_cons.
    destruct (decide (bend_key b = key)) as [->|]; simpl; [|done].
    by rewrite <- app_assoc.
Qed.

Lemma group_controls_eq (l : list ControlChange.t)
    (m : gmap (Z * Z) events) (key : Z * Z) :
  events_at key (fold_left group_control l m)
  = mk_events (ev_notes (events_at key m)) (ev_bends (events_at key m))
      (ev_controls (events_at key m)
         ++ (encoded_control <$> filter (λ c, control_key c = key) l)).
Proof.
  revert m; induction l as [|c l IH]; intros m; simpl.
  - by rewrite app_nil_r, events_eta.
  - rewrite IH. unfold group_control. rewrite events_at_insert.
    fold (control_key c). rewrite filter_cons.
    destruct (decide (control_key c = key)) as [->|]; simpl; [|done].
    by rewrite <- app_assoc.
Qed.

Lemma gather_events_at sequence key :
  events_at key (gather_events sequence) = group sequence key.
Proof.
  unfold gather_events.
  by rewrite group_controls_eq, group_bends_eq, group_notes_eq.
Qed.

Lemma group_notes_dom (l : list Note.t) (m : gmap (Z * Z) events) :
  dom (fold_left group_note l m) = dom m ∪ list_to_set (note_key <$> l).
Proof.
  revert m; induction l as [|n l IH]; intros m; simpl.
  - set_solver.
  - rewrite IH. unfold group_note. rewrite dom_insert_L.
    fold (note_key n). set_solver.
Qed.

Lemma group_bends_dom (l : list PitchBend.t) (m : gmap (Z * Z) events) :
  dom (fold_left group_bend l m) = dom m ∪ list_to_set (bend_key <$> l).
Proof.
  revert m; induction l as [|b l IH]; intros m; simpl.
  - set_solver.
  - rewrite IH. unfold group_bend. rewrite dom_insert_L.
    fold (bend_key b). set_solver.
Qed.

Lemma group_controls_dom (l : list ControlChange.t)
    (m : gmap (Z * Z) events) :
  dom (fold_left group_control l m)
  = dom m ∪ list_to_set (control_key <$> l).
Proof.
  revert m; induction l as [|c l IH]; intros m; simpl.
  - set_solver.
  - rewrite IH. unfold group_control. rewrite dom_insert_L.
    fold (control_key c). set_solver.
Qed.

Lemma gather_events_dom sequence :
  dom (gather_events sequence) = list_to_set (event_keys sequence).
Proof.
  unfold gather_events, event_keys.
  rewrite group_controls_dom, group_bends_dom, group_notes_dom.
  rewrite !list_to_set_app_L. set_solver.
Qed.

(** ** Sorted keys *)

Global Instance key_le_total : Total key_le.
Proof. intros [a1 a2] [b1 b2]. unfold key_le; simpl. lia. Qed.

Global Instance key_le_trans : Transitive key_le.
Proof. intros [a1 a2] [b1 b2] [c1 c2]. unfold key_le; simpl. lia. Qed.

Global Instance key_le_antisymm : AntiSymm (=) key_le.
Proof.
  intros [a1 a2] [b1 b2]. unfold key_le; simpl. intros ? ?. f_equal; lia.
Qed.

Lemma sorted_keys_ascending sequence :
  distinct_keys_ascending sequence (sorted_keys (gather_events sequence)).
Proof.
  unfold distinct_keys_ascending, sorted_keys. split; [|split].
  - apply StronglySorted_merge_sort; apply _.
  - rewrite merge_sort_Permutation. apply NoDup_fst_map_to_list.
  - intros key. rewrite merge_sort_Permutation.
    transitivity (key ∈ dom (gather_events sequence)).
    + rewrite elem_of_dom, list_elem_of_fmap. split.
      * intros ([k e] & -> & He). apply elem_of_map_to_list in He. eauto.
      * intros [e He]. exists (key, e). split; [done|].
        by apply elem_of_map_to_list.
    + rewrite gather_events_dom. apply elem_of_list_to_set.
Qed.

Lemma distinct_keys_ascending_unique sequence keys keys' :
  distinct_keys_ascending sequence keys →
  distinct_keys_ascending sequence keys' →
  keys = keys'.
Proof.
  intros (Hs & Hn & He) (Hs' & Hn' & He').
  apply (StronglySorted_unique key_le); [done..|].
  apply NoDup_Permutation; [done..|]. intros key. by rewrite He, He'.
Qed.

(** In a sorted key list the keys with a non-positive instrument index
    come first. *)
Lemma sorted_keys_split keys :
  StronglySorted key_le keys →
  keys = filter (λ key, key.1 ≤ 0) keys ++ filter (λ key, 0 < key.1) keys.
Proof.
  induction 1 as [|k keys Hs IH Hk]; [done|].
  rewrite !filter_cons. destruct (decide (k.1 ≤ 0)) as [Hle|Hgt].
  - rewrite decide_False by lia. simpl. by rewrite <- IH.
  - rewrite decide_True by lia.
    assert (Forall (λ key : Z * Z, 0 < key.1) keys) as Hall.
    { eapply Forall_impl; [exact Hk|]. unfold key_le. intros [? ?]; simpl.
      lia. }
    replace (filter (λ key : Z * Z, key.1 ≤ 0) keys) with (@nil (Z * Z)).
    + simpl. f_equal. symmetry. clear -Hall.
      induction Hall as [|x l Hx _ IHl]; [done|].
      rewrite filter_cons_True by done. by f_equal.
    + symmetry. clear -Hall.
      induction Hall as [|x l Hx _ IHl]; [done|].
      rewrite filter_cons_False by lia. done.
Qed.

(** ** The loop over the sorted keys *)

Lemma assign_events_twice p e p' e' i :
  assign_events p e (assign_events p' e' i) = assign_events p e i.
Proof. reflexivity. Qed.

Lemma attach_events_low (m : gmap (Z * Z) events) keys ph :
  Forall (λ key : Z * Z, key.1 ≤ 0) keys →
  fold_left (attach_events m) keys ([ph], 0%nat)
  = ([from_option (λ key, assign_events key.2 (events_at key m) ph) ph
        (last keys)], 0%nat).
Proof.
  induction keys as [|[i p] keys IH] using rev_ind; [done|].
  intros [Hkeys Hk%Forall_inv]%Forall_app. simpl in Hk.
  rewrite fold_left_app, IH by done. simpl.
  rewrite last_snoc. destruct (Z.ltb_spec 0 i); [lia|]. simpl.
  by destruct (last keys).
Qed.

Lemma attach_events_high (m : gmap (Z * Z) events) keys instruments
    instrument :
  Forall (λ key : Z * Z, 0 < key.1) keys →
  (fold_left (attach_events m) keys (instruments, instrument)).1
  = instruments
    ++ ((λ key : Z * Z,
           pretty_midi.Instrument.mk key.2 (key.1 =? 9)
             (ev_notes (events_at key m)) (ev_bends (events_at key m))
             (ev_controls (events_at key m))) <$> keys).
Proof.
  intros Hkeys; revert instruments instrument.
  induction Hkeys as [|[i p] keys Hk _ IH]; intros instruments instrument.
  - simpl. by rewrite app_nil_r.
  - simpl in Hk. cbn [fold_left attach_events].
    destruct (Z.ltb_spec 0 i); [|lia].
    rewrite IH. rewrite <- (Nat.add_0_r (length instruments)).
    rewrite alter_app_r. simpl. by rewrite <- app_assoc.
Qed.

Lemma attach_events_sorted sequence :
  (fold_left (attach_events (gather_events sequence))
     (sorted_keys (gather_events sequence))
     ([pretty_midi.Instrument.Instrument 0 false], 0%nat)).1
  = encoded_instruments sequence (sorted_keys (gather_events sequence)).
Proof.
  destruct (sorted_keys_ascending sequence) as [Hs _].
  set (keys := sorted_keys (gather_events sequence)) in *.
  unfold encoded_instruments.
  rewrite (sorted_keys_split keys Hs) at 1.
  rewrite fold_left_app, attach_events_low
    by (apply Forall_forall; intros k [? _]%list_elem_of_filter; done).
  rewrite attach_events_high
    by (apply Forall_forall; intros k [? _]%list_elem_of_filter; done).
  simpl. f_equal.
  - destruct (last _) as [k|]; [|done]. simpl.
    by rewrite gather_events_at.
  - apply list_fmap_ext. intros _ k _. by rewrite gather_events_at.
Qed.

(** ** The encoder as a whole *)

Lemma sequence_proto_to_pretty_midi_eq time_to_tick sequence :
  sequence_proto_to_pretty_midi time_to_tick sequence
  = (pm <- for_each (tail (tempos sequence))
             (populate_tick_scale time_to_tick) (encoded_header sequence) ;;
     Return
       (set_instruments
          (encoded_instruments sequence
             (sorted_keys (gather_events sequence))) pm)).
Proof.
  unfold sequence_proto_to_pretty_midi.
  rewrite populate_time_signature_changes_eq,
    populate_key_signature_changes_eq.
  cbn [pretty_midi.new set_instruments pretty_midi.resolution
       pretty_midi.initial_tempo pretty_midi.tick_scales
       pretty_midi.time_signature_changes pretty_midi.key_signature_changes
       pretty_midi.instruments app].
  fold (encoded_header sequence).
  assert ((if (1 <? length (tempos sequence))%nat
           then for_each (tail (tempos sequence))
                  (populate_tick_scale time_to_tick) (encoded_header sequence)
           else Return (encoded_header sequence))
          = for_each (tail (tempos sequence))
              (populate_tick_scale time_to_tick) (encoded_header sequence))
    as ->.
  { destruct (tempos sequence) as [|t0 [|t1 rest]]; reflexivity. }
  destruct (decide (Forall (tempo_divides (ticks_per_beat sequence))
                      (tail (tempos sequence)))) as [Hd|Hd].
  - destruct (populate_tick_scales_returns time_to_tick _
                (encoded_header sequence) Hd) as (new & -> & _).
    cbn [bind set_tick_scales pretty_midi.instruments encoded_header].
    rewrite <- attach_events_sorted.
    by destruct (fold_left _ _ _).
  - apply not_Forall_Exists in Hd; [|apply _].
    by rewrite (populate_tick_scales_raises time_to_tick _
                  (encoded_header sequence) Hd).
Qed.

Lemma sequence_proto_to_pretty_midi_returns time_to_tick sequence :
  Forall (tempo_divides (ticks_per_beat sequence)) (tail (tempos sequence)) →
  ∃ new,
    sequence_proto_to_pretty_midi time_to_tick sequence
    = Return
        (pretty_midi.mk (ticks_per_beat sequence)
           (initial_tempo_kwarg sequence) new
           (encoded_time_signature <$> time_signatures sequence)
           (encode_key_signature <$> key_signatures sequence)
           (encoded_instruments sequence
              (sorted_keys (gather_events sequence))))
    ∧ length new = length (tail (tempos sequence))
    ∧ ∀ i t, tail (tempos sequence) !! i = Some t →
        new !! i
        = Some (time_to_tick
                  (set_tick_scales (take i new) (encoded_header sequence))
                  (Tempo.time t),
                (60 / (float_of_Z (ticks_per_beat sequence)
                       * Tempo.bpm t))%float).
Proof.
  intros Hd. rewrite sequence_proto_to_pretty_midi_eq.
  destruct (populate_tick_scales_returns time_to_tick _
              (encoded_header sequence) Hd) as (new & -> & Hlen & Hnth).
  exists new. split; [done|]. split; [done|]. exact Hnth.
Qed.

Lemma sequence_proto_to_pretty_midi_raises time_to_tick sequence :
  Exists (λ t, ¬ tempo_divides (ticks_per_beat sequence) t)
    (tail (tempos sequence)) →
  sequence_proto_to_pretty_midi time_to_tick sequence
  = Raise ZeroDivisionError.
Proof.
  intros Hd. rewrite sequence_proto_to_pretty_midi_eq.
  by rewrite (populate_tick_scales_raises time_to_tick _
                (encoded_header sequence) Hd).
Qed.

Lemma sequence_proto_to_pretty_midi_inv time_to_tick sequence pm :
  sequence_proto_to_pretty_midi time_to_tick sequence = Return pm →
  Forall (tempo_divides (ticks_per_beat sequence)) (tail (tempos sequence)).
Proof.
  intros Hpm.
  destruct (decide (Forall (tempo_divides (ticks_per_beat sequence))
                      (tail (tempos sequence)))) as [Hd|Hd]; [done|].
  apply not_Forall_Exists in Hd; [|apply _].
  rewrite (sequence_proto_to_pretty_midi_raises _ _ Hd) in Hpm.
  discriminate.
Qed.

(** ** Claims about the encoder *)

(** C5. The encoder turns every key signature into the key number
    [key] for MAJOR and [key + 12] for MINOR, at the same time, and these
    are the key signatures of its output.  Decoding a key number in
    [0, 23] and encoding the result gives the key number back: whenever
    a decoded MIDI object is encoded again, the output has the key
    signature changes of the input. *)
Theorem C5_key_signature_inverse :
  (∀ seq_key,
     encode_key_signature seq_key
     = pretty_midi.KeySignature.KeySignature
         (match KeySignature.mode seq_key with
          | MAJOR => KeySignature.key seq_key
          | MINOR => KeySignature.key seq_key + 12
          end)
         (KeySignature.time seq_key))
  ∧ (∀ time_to_tick sequence pm,
       sequence_proto_to_pretty_midi time_to_tick sequence = Return pm →
       pretty_midi.key_signature_changes pm
       = encode_key_signature <$> key_signatures sequence)
  ∧ (∀ midi_key sequence,
       0 ≤ pretty_midi.KeySignature.key_number midi_key < 24 →
       ∃ seq_key,
         populate_key_signature midi_key sequence
         = Return (add_key_signature seq_key sequence)
         ∧ encode_key_signature seq_key = midi_key)
  ∧ (∀ parse get_tempo_changes time_to_tick midi_data
       continue_on_exception midi sequence pm,
       parsed parse midi_data = Some midi →
       midi_to_sequence_proto parse get_tempo_changes midi_data
         continue_on_exception = Return (Some sequence) →
       sequence_proto_to_pretty_midi time_to_tick sequence = Return pm →
       pretty_midi.key_signature_changes pm
       = pretty_midi.key_signature_changes midi).
Proof.
  assert (∀ midi_key, key_number_in_range midi_key →
            encode_key_signature (decoded_key_signature midi_key) = midi_key)
    as Hinv.
  { intros [k t]. unfold key_number_in_range, encode_key_signature,
      decoded_key_signature, _PRETTY_MIDI_MAJOR_TO_MINOR_OFFSET. simpl.
    intros Hk. destruct (Z.ltb_spec k 12); simpl; f_equal.
    - apply Z.mod_small. lia.
    - pose proof (Z.div_mod k 12 ltac:(lia)) as Hdm.
      replace (k / 12) with 1 in Hdm
        by (apply (Z.div_unique k 12 1 (k - 12)); lia).
      lia. }
  assert (∀ time_to_tick sequence pm,
            sequence_proto_to_pretty_midi time_to_tick sequence = Return pm →
            pretty_midi.key_signature_changes pm
            = encode_key_signature <$> key_signatures sequence) as Henc.
  { intros time_to_tick sequence pm Hpm.
    destruct (sequence_proto_to_pretty_midi_returns time_to_tick sequence)
      as (new & Hret & _).
    { by eapply sequence_proto_to_pretty_midi_inv. }
    rewrite Hret in Hpm. by injection Hpm as <-. }
  split; [|split; [|split]].
  - intros [t k []]; reflexivity.
  - exact Henc.
  - intros midi_key sequence Hk. exists (decoded_key_signature midi_key).
    split; [by apply populate_key_signature_in_range | by apply Hinv].
  - intros parse get_tempo_changes time_to_tick midi_data
      continue_on_exception midi sequence pm Hp Hs Hpm.
    destruct (midi_to_sequence_proto_returns _ _ _ _ _ _ Hp Hs)
      as [Hk [= ->]].
    rewrite (Henc _ _ _ Hpm). cbn [decoded_sequence key_signatures].
    clear -Hk Hinv. induction Hk as [|k l Hk _ IH]; [done|].
    cbn [map fmap list_fmap]. rewrite Hinv by done. f_equal. exact IH.
Qed.

Lemma C5_key_signature_inverse_witness :
  ∃ sequence pm,
    midi_to_sequence_proto parse_fails default_tempo_changes
      (Object two_keys_midi) false = Return (Some sequence)
    ∧ sequence_proto_to_pretty_midi constant_tempo_time_to_tick sequence
      = Return pm
    ∧ pretty_midi.key_signature_changes pm
      = [pretty_midi.KeySignature.KeySignature 3 0%float;
         pretty_midi.KeySignature.KeySignature 14 1%float].
Proof.
  destruct C5_key_signature_inverse as (_ & _ & _ & Hround).
  eexists _, _. split; [reflexivity|]. split; [reflexivity|].
  apply (Hround parse_fails default_tempo_changes
           constant_tempo_time_to_tick (Object two_keys_midi) false
           two_keys_midi _ _ eq_refl eq_refl eq_refl).
Defined.

(** C8, as the code has it.  When the first tempo entry is at time 0,
    an object the encoder returns was constructed with the first entry's
    bpm as initial tempo, and has had exactly one breakpoint appended for
    each later entry, in order: the tick [time_to_tick] gives for the
    entry's time on the object as it is at that moment, paired with
    [60 / (resolution * bpm)]. *)
Theorem C8_tempo_breakpoints time_to_tick sequence t0 rest pm :
  tempos sequence = t0 :: rest →
  PrimFloat.eqb (Tempo.time t0) 0%float = true →
  sequence_proto_to_pretty_midi time_to_tick sequence = Return pm →
  pretty_midi.resolution pm = ticks_per_beat sequence
  ∧ pretty_midi.initial_tempo pm = Some (Tempo.bpm t0)
  ∧ length (pretty_midi.tick_scales pm) = length rest
  ∧ ∀ i t, rest !! i = Some t →
      pretty_midi.tick_scales pm !! i
      = Some (time_to_tick
                (set_tick_scales (take i (pretty_midi.tick_scales pm))
                   (encoded_header sequence))
                (Tempo.time t),
              (60 / (float_of_Z (ticks_per_beat sequence)
                     * Tempo.bpm t))%float).
Proof.
  intros Ht H0 Hpm.
  destruct (sequence_proto_to_pretty_midi_returns time_to_tick sequence)
    as (new & Hret & Hlen & Hnth).
  { by eapply sequence_proto_to_pretty_midi_inv. }
  rewrite Hret in Hpm. injection Hpm as <-.
  rewrite Ht in Hlen, Hnth. simpl in Hlen, Hnth. simpl.
  split; [done|]. split; [|split; [done|exact Hnth]].
  unfold initial_tempo_kwarg. by rewrite Ht, H0.
Qed.

Lemma C8_tempo_breakpoints_witness :
  ∃ pm,
    sequence_proto_to_pretty_midi constant_tempo_time_to_tick
      two_tempos_sequence = Return pm
    ∧ pretty_midi.resolution pm = 480
    ∧ pretty_midi.initial_tempo pm = Some 120%float
    ∧ pretty_midi.tick_scales pm = [(1920, (60 / 43200)%float)].
Proof.
  eexists. split; [reflexivity|].
  destruct (C8_tempo_breakpoints constant_tempo_time_to_tick
              two_tempos_sequence (Tempo.mk 0%float 120%float)
              [Tempo.mk 2%float 90%float] _ eq_refl eq_refl eq_refl)
    as (Hres & Hinit & _ & _).
  split; [exact Hres|]. split; [exact Hinit | reflexivity].
Defined.

(** C8 as stated fails: with tempos [(0, 120), (2.0, 0)] the division
    [60.0 / (pm.resolution * seq_tempo.bpm)] raises ZeroDivisionError, so
    no breakpoint is appended and no object is returned. *)
Lemma C8_zero_bpm_raises :
  tempos zero_bpm_sequence
  = [Tempo.mk 0%float 120%float; Tempo.mk 2%float 0%float]
  ∧ sequence_proto_to_pretty_midi constant_tempo_time_to_tick
      zero_bpm_sequence
    = Raise ZeroDivisionError.
Proof. split; reflexivity. Qed.

(** C10. When the first tempo entry is not at time 0, replacing its bpm
    leaves the encoder's result unchanged.  An object the encoder returns
    was constructed without an initial tempo and has exactly one appended
    breakpoint for each entry after the first. *)
Theorem C10_late_first_tempo_ignored time_to_tick sequence t0 rest bpm' :
  tempos sequence = t0 :: rest →
  PrimFloat.eqb (Tempo.time t0) 0%float = false →
  sequence_proto_to_pretty_midi time_to_tick
    (set_tempos (Tempo.mk (Tempo.time t0) bpm' :: rest) sequence)
  = sequence_proto_to_pretty_midi time_to_tick sequence
  ∧ (∀ pm,
       sequence_proto_to_pretty_midi time_to_tick sequence = Return pm →
       pretty_midi.initial_tempo pm = None
       ∧ length (pretty_midi.tick_scales pm) = length rest
       ∧ ∀ i t, rest !! i = Some t →
           pretty_midi.tick_scales pm !! i
           = Some (time_to_tick
                     (set_tick_scales (take i (pretty_midi.tick_scales pm))
                        (encoded_header sequence))
                     (Tempo.time t),
                   (60 / (float_of_Z (ticks_per_beat sequence)
                          * Tempo.bpm t))%float)).
Proof.
  intros Ht H0. split.
  - rewrite !sequence_proto_to_pretty_midi_eq.
    unfold encoded_header, initial_tempo_kwarg, encoded_instruments,
      gather_events, group_instrument, placeholder_with, group.
    simpl. by rewrite Ht, H0.
  - intros pm Hpm.
    destruct (sequence_proto_to_pretty_midi_returns time_to_tick sequence)
      as (new & Hret & Hlen & Hnth).
    { by eapply sequence_proto_to_pretty_midi_inv. }
    rewrite Hret in Hpm. injection Hpm as <-. simpl.
    rewrite Ht in Hlen, Hnth. simpl in Hlen, Hnth.
    split; [|split; [done|exact Hnth]].
    unfold initial_tempo_kwarg. by rewrite Ht, H0.
Qed.

Lemma C10_late_first_tempo_ignored_witness :
  sequence_proto_to_pretty_midi constant_tempo_time_to_tick
    (set_tempos [Tempo.mk 1%float 250%float; Tempo.mk 2%float 90%float]
       late_first_tempo_sequence)
  = sequence_proto_to_pretty_midi constant_tempo_time_to_tick
      late_first_tempo_sequence.
Proof.
  apply (C10_late_first_tempo_ignored constant_tempo_time_to_tick
           late_first_tempo_sequence (Tempo.mk 1%float 100%float)
           [Tempo.mk 2%float 90%float] 250%float eq_refl eq_refl).
Defined.

(** ** Groups that share the first instrument *)

Lemma StronglySorted_filter_keys (P : Z * Z → Prop)
    `{!∀ key, Decision (P key)} keys :
  StronglySorted key_le keys → StronglySorted key_le (filter P keys).
Proof.
  induction 1 as [|k keys Hs IH Hk]; [constructor|].
  rewrite filter_cons. destruct (decide (P k)); [|done].
  constructor; [done|]. apply Forall_forall.
  intros k' [_ Hk']%list_elem_of_filter.
  by apply (proj1 (Forall_forall _ _) Hk).
Qed.

(** In a sorted list an element that every element is below is the last
    one. *)
Lemma sorted_last_greatest keys (key : Z * Z) :
  StronglySorted key_le keys →
  key ∈ keys →
  (∀ key', key' ∈ keys → key_le key' key) →
  last keys = Some key.
Proof.
  induction 1 as [|k keys Hs IH Hk]; intros Hin Hmax.
  - by apply elem_of_nil in Hin.
  - destruct keys as [|k' keys'].
    + apply list_elem_of_singleton in Hin as ->. done.
    + rewrite last_cons_cons. apply IH.
      * apply elem_of_cons in Hin as [->|Hin]; [|done].
        assert (k' = k) as ->; [|by left].
        apply (anti_symm key_le).
        -- apply Hmax. right. by left.
        -- by apply Forall_inv in Hk.
      * intros key' Hkey'. apply Hmax. by right.
Qed.

Lemma last_low_key sequence keys p2 :
  distinct_keys_ascending sequence keys →
  (0, p2) ∈ event_keys sequence →
  (∀ p, (0, p) ∈ event_keys sequence → p ≤ p2) →
  last (filter (λ key : Z * Z, key.1 ≤ 0) keys) = Some (0, p2).
Proof.
  intros (Hs & _ & He) Hin Hmax. apply sorted_last_greatest.
  - by apply StronglySorted_filter_keys.
  - apply list_elem_of_filter. split; [done|]. by apply He.
  - intros [i p] [Hi Hk]%list_elem_of_filter. simpl in Hi.
    unfold key_le; simpl. destruct (decide (i = 0)) as [->|]; [|lia].
    right. split; [done|]. apply Hmax. by apply He.
Qed.

Lemma elem_of_event_keys_without key key' sequence :
  key ∈ event_keys (without_group key' sequence)
  ↔ key ≠ key' ∧ key ∈ event_keys sequence.
Proof.
  unfold event_keys, without_group. simpl.
  rewrite !elem_of_app, !list_elem_of_fmap.
  setoid_rewrite list_elem_of_filter. naive_solver.
Qed.

Lemma group_without key key' sequence :
  key ≠ key' →
  group (without_group key' sequence) key = group sequence key.
Proof.
  intros Hne. unfold group, without_group. simpl.
  rewrite !list_filter_filter. f_equal; f_equal;
    apply list_filter_iff; naive_solver.
Qed.

Lemma distinct_keys_ascending_without key sequence keys :
  distinct_keys_ascending sequence keys →
  distinct_keys_ascending (without_group key sequence)
    (filter (λ key', key' ≠ key) keys).
Proof.
  intros (Hs & Hn & He). split; [|split].
  - by apply StronglySorted_filter_keys.
  - by apply NoDup_filter.
  - intros key'. rewrite list_elem_of_filter, elem_of_event_keys_without.
    by rewrite He.
Qed.

(** Removing a group that is not the last one on the first instrument
    leaves the instruments of the output unchanged. *)
Lemma encoded_instruments_without sequence keys keys' p1 p2 :
  distinct_keys_ascending sequence keys →
  distinct_keys_ascending (without_group (0, p1) sequence) keys' →
  (0, p2) ∈ event_keys sequence →
  p1 < p2 →
  (∀ p, (0, p) ∈ event_keys sequence → p ≤ p2) →
  encoded_instruments (without_group (0, p1) sequence) keys'
  = encoded_instruments sequence keys.
Proof.
  intros Hk Hk' Hin Hlt Hmax.
  rewrite (distinct_keys_ascending_unique _ _ _ Hk'
             (distinct_keys_ascending_without (0, p1) _ _ Hk)).
  unfold encoded_instruments.
  rewrite (last_low_key sequence keys p2) by done.
  rewrite (last_low_key (without_group (0, p1) sequence) _ p2).
  - simpl. f_equal.
    + unfold placeholder_with. rewrite group_without; [done|].
      intros [= ?]. lia.
    + rewrite list_filter_filter.
      rewrite (list_filter_iff _ (λ key : Z * Z, 0 < key.1)).
      * apply list_fmap_ext. intros _ [i p] Hi%list_elem_of_lookup_2.
        apply list_elem_of_filter in Hi as [Hi _]. simpl in Hi.
        unfold group_instrument. rewrite group_without; [done|].
        intros [= ? ?]. lia.
      * intros [i p]; simpl. split; [naive_solver|].
        intros Hi. split; [done|]. intros [= ? ?]. lia.
  - by apply distinct_keys_ascending_without.
  - apply elem_of_event_keys_without. split; [|done]. intros [= ?]. lia.
  - intros p [_ Hp]%elem_of_event_keys_without. by apply Hmax.
Qed.

(** C7, as the code has it.  The events are grouped by
    [(instrument, program)].  In an object the encoder returns, the
    instruments are the instrument created first, followed by one new
    instrument for each distinct key whose instrument index is positive,
    in ascending [(instrument, program)] order; a new instrument has its
    key's program, is a drum exactly when the instrument index is 9, and
    carries its group's notes, pitch bends and control changes in sequence
    order.  A key with instrument index 0 gets no instrument of its own:
    when it is the only key whose index is not positive, the first
    instrument carries its program and its group; when there is no such
    key the first instrument stays empty. *)
Theorem C7_instrument_grouping time_to_tick sequence pm :
  sequence_proto_to_pretty_midi time_to_tick sequence = Return pm →
  ∃ keys first,
    distinct_keys_ascending sequence keys
    ∧ pretty_midi.instruments pm
      = first
        :: ((λ key,
               pretty_midi.Instrument.mk key.2 (key.1 =? 9)
                 (encoded_note
                    <$> filter (λ n, note_key n = key) (notes sequence))
                 (encoded_bend
                    <$> filter (λ b, bend_key b = key)
                          (pitch_bends sequence))
                 (encoded_control
                    <$> filter (λ c, control_key c = key)
                          (control_changes sequence)))
              <$> filter (λ key, 0 < key.1) keys)
    ∧ (∀ p, filter (λ key, key.1 ≤ 0) keys = [(0, p)] →
       first
       = pretty_midi.Instrument.mk p false
           (encoded_note
              <$> filter (λ n, note_key n = (0, p)) (notes sequence))
           (encoded_bend
              <$> filter (λ b, bend_key b = (0, p)) (pitch_bends sequence))
           (encoded_control
              <$> filter (λ c, control_key c = (0, p))
                    (control_changes sequence)))
    ∧ (filter (λ key, key.1 ≤ 0) keys = [] →
       first = pretty_midi.Instrument.Instrument 0 false).
Proof.
  intros Hpm.
  destruct (sequence_proto_to_pretty_midi_returns time_to_tick sequence)
    as (new & Hret & _).
  { by eapply sequence_proto_to_pretty_midi_inv. }
  rewrite Hret in Hpm. injection Hpm as <-.
  exists (sorted_keys (gather_events sequence)). eexists.
  split; [apply sorted_keys_ascending|].
  split; [reflexivity|]. split.
  - by intros p ->.
  - by intros ->.
Qed.

Lemma C7_instrument_grouping_witness :
  ∃ pm,
    sequence_proto_to_pretty_midi constant_tempo_time_to_tick
      shared_program_sequence = Return pm
    ∧ ∃ keys first,
        distinct_keys_ascending shared_program_sequence keys
        ∧ pretty_midi.instruments pm
          = first
            :: (group_instrument shared_program_sequence
                  <$> filter (λ key, 0 < key.1) keys).
Proof.
  eexists. split; [reflexivity|].
  destruct (C7_instrument_grouping constant_tempo_time_to_tick
              shared_program_sequence _ eq_refl)
    as (keys & first & Hkeys & Hinst & _).
  exists keys, first. split; [exact Hkeys | exact Hinst].
Defined.

(** The run of the encoder on [shared_program_sequence]: the groups
    [(0, 5)] and [(2, 5)] land on two instruments, the first two of the
    output, and the group [(9, 0)] on a drum instrument. *)
Example shared_program_instruments :
  sequence_proto_to_pretty_midi constant_tempo_time_to_tick
    shared_program_sequence
  = Return
      (pretty_midi.mk 220 None [] [] []
         [pretty_midi.Instrument.mk 5 false
            [pretty_midi.Note.Note 100 60 0%float 1%float] [] [];
          pretty_midi.Instrument.mk 5 false
            [pretty_midi.Note.Note 90 64 0%float 1%float] [] [];
          pretty_midi.Instrument.mk 0 true
            [pretty_midi.Note.Note 110 36 0%float 1%float] [] []]).
Proof. reflexivity. Qed.

(** C7 as stated fails: a sequence with the two distinct keys [(0, 1)]
    and [(0, 2)] is encoded with a single instrument, which carries only
    the group of [(0, 2)]. *)
Lemma C7_two_keys_one_instrument :
  note_key <$> notes two_programs_sequence = [(0, 1); (0, 2)]
  ∧ sequence_proto_to_pretty_midi constant_tempo_time_to_tick
      two_programs_sequence
    = Return
        (pretty_midi.mk 220 None [] [] []
           [pretty_midi.Instrument.mk 2 false
              [pretty_midi.Note.Note 100 62 1%float 2%float] [] []]).
Proof. split; reflexivity. Qed.

(** C9. Let a sequence have events on instrument 0 under programs
    [p1 < p2], [p2] being the greatest program used on instrument 0.  In
    an object the encoder returns, the first instrument has program [p2]
    and carries exactly the group of [(0, p2)]; every other instrument
    belongs to a key with a positive instrument index; and encoding the
    sequence without the events of [(0, p1)] returns the same object, so
    those events leave no trace in the output. *)
Theorem C9_last_program_on_instrument_0_wins time_to_tick sequence p1 p2
    pm :
  (0, p1) ∈ event_keys sequence →
  (0, p2) ∈ event_keys sequence →
  p1 < p2 →
  (∀ p, (0, p) ∈ event_keys sequence → p ≤ p2) →
  sequence_proto_to_pretty_midi time_to_tick sequence = Return pm →
  (∃ keys,
     distinct_keys_ascending sequence keys
     ∧ pretty_midi.instruments pm
       = pretty_midi.Instrument.mk p2 false
           (encoded_note
              <$> filter (λ n, note_key n = (0, p2)) (notes sequence))
           (encoded_bend
              <$> filter (λ b, bend_key b = (0, p2)) (pitch_bends sequence))
           (encoded_control
              <$> filter (λ c, control_key c = (0, p2))
                    (control_changes sequence))
         :: (group_instrument sequence <$> filter (λ key, 0 < key.1) keys))
  ∧ sequence_proto_to_pretty_midi time_to_tick
      (without_group (0, p1) sequence) = Return pm.
Proof.
  intros Hp1 Hp2 Hlt Hmax Hpm.
  pose proof (sorted_keys_ascending sequence) as Hk.
  pose proof (sorted_keys_ascending (without_group (0, p1) sequence)) as Hk'.
  split.
  - destruct (sequence_proto_to_pretty_midi_returns time_to_tick sequence)
      as (new & Hret & _).
    { by eapply sequence_proto_to_pretty_midi_inv. }
    rewrite Hret in Hpm. injection Hpm as <-.
    exists (sorted_keys (gather_events sequence)). split; [done|].
    cbn [pretty_midi.instruments]. unfold encoded_instruments.
    by rewrite (last_low_key sequence _ p2).
  - rewrite <- Hpm. rewrite !sequence_proto_to_pretty_midi_eq.
    by rewrite (encoded_instruments_without sequence _ _ p1 p2 Hk Hk').
Qed.

Lemma C9_last_program_on_instrument_0_wins_witness :
  sequence_proto_to_pretty_midi constant_tempo_time_to_tick
    (without_group (0, 1) two_programs_sequence)
  = Return
      (pretty_midi.mk 220 None [] [] []
         [pretty_midi.Instrument.mk 2 false
            [pretty_midi.Note.Note 100 62 1%float 2%float] [] []]).
Proof.
  apply (C9_last_program_on_instrument_0_wins constant_tempo_time_to_tick
           two_programs_sequence 1 2).
  - repeat constructor.
  - repeat constructor.
  - lia.
  - intros p Hp. unfold event_keys in Hp. simpl in Hp.
    rewrite !elem_of_cons, elem_of_nil in Hp.
    destruct Hp as [[= ->]|[[= ->]|[[= ->]|[[= ->]|[]]]]]; lia.
  - reflexivity.
Defined.

(** ** Further properties of the decoder *)

Lemma for_each_app {S A} (l1 l2 : list A) (body : A → S → result S) s :
  for_each (l1 ++ l2) body s
  = (s' <- for_each l1 body s ;; for_each l2 body s').
Proof.
  revert s; induction l1 as [|x l1 IH]; intros s; simpl; [done|].
  destruct (body x s); simpl; [apply IH | done].
Qed.

Lemma midi_to_sequence_proto_some parse get_tempo_changes midi_data
    continue_on_exception sequence :
  midi_to_sequence_proto parse get_tempo_changes midi_data
    continue_on_exception = Return (Some sequence) →
  ∃ midi,
    parsed parse midi_data = Some midi
    ∧ Forall key_number_in_range (pretty_midi.key_signature_changes midi)
    ∧ sequence = decoded_sequence get_tempo_changes midi.
Proof.
  intros Hs. destruct (parsed parse midi_data) as [midi|] eqn:Hp.
  - exists midi. split; [done|].
    destruct (midi_to_sequence_proto_returns _ _ _ _ _ _ Hp Hs)
      as [Hk [= ->]].
    done.
  - destruct midi_data as [s|m]; simpl in *; [|done].
    rewrite Hp in Hs. by destruct continue_on_exception.
Qed.

(** X1. The decoder returns None only for contents the parser rejects, and
    only when [continue_on_exception] is set; when there is a parsed
    object, [continue_on_exception] has no effect on the outcome. *)
Theorem midi_to_sequence_proto_none_iff parse get_tempo_changes midi_data :
  (∀ continue_on_exception,
     midi_to_sequence_proto parse get_tempo_changes midi_data
       continue_on_exception = Return None
     ↔ parsed parse midi_data = None ∧ continue_on_exception = true)
  ∧ (is_Some (parsed parse midi_data) →
     midi_to_sequence_proto parse get_tempo_changes midi_data true
     = midi_to_sequence_proto parse get_tempo_changes midi_data false).
Proof.
  split.
  - intros c. destruct (parsed parse midi_data) as [midi|] eqn:Hp.
    + rewrite (midi_to_sequence_proto_parsed _ _ _ _ _ Hp).
      split; [|by intros [? _]].
      by destruct (convert get_tempo_changes midi).
    + destruct midi_data as [s|m]; simpl in *; [|done].
      rewrite Hp. destruct c; split; try done. by intros [_ ?].
  - intros [midi Hp].
    by rewrite !(midi_to_sequence_proto_parsed _ _ _ _ _ Hp).
Qed.

Lemma midi_to_sequence_proto_none_iff_witness :
  midi_to_sequence_proto parse_fails default_tempo_changes
    (Object two_keys_midi) true
  = midi_to_sequence_proto parse_fails default_tempo_changes
      (Object two_keys_midi) false.
Proof.
  apply (midi_to_sequence_proto_none_iff parse_fails default_tempo_changes
           (Object two_keys_midi)).
  by exists two_keys_midi.
Defined.

(** X2. The invalid-mode error reports the first key number out of range:
    when the key signatures before it are in range, the decoder raises
    MIDIConversionError('Invalid midi_mode %i') with that key number's
    quotient by 12, whatever follows it. *)
Theorem invalid_midi_mode_of_first_offender parse get_tempo_changes
    midi_data continue_on_exception midi good bad rest :
  parsed parse midi_data = Some midi →
  pretty_midi.key_signature_changes midi = good ++ bad :: rest →
  Forall (λ k, 0 ≤ pretty_midi.KeySignature.key_number k < 24) good →
  pretty_midi.KeySignature.key_number bad < 0
  ∨ 24 ≤ pretty_midi.KeySignature.key_number bad →
  midi_to_sequence_proto parse get_tempo_changes midi_data
    continue_on_exception
  = Raise (MIDIConversionError
             (InvalidMidiMode
                (pretty_midi.KeySignature.key_number bad / 12)))
  ∧ pretty_midi.KeySignature.key_number bad / 12 ≠ 0
  ∧ pretty_midi.KeySignature.key_number bad / 12 ≠ 1.
Proof.
  intros Hp Hk Hgood Hbad.
  rewrite (midi_to_sequence_proto_parsed _ _ _ _ _ Hp). unfold convert.
  rewrite Hk, for_each_app.
  rewrite (populate_key_signatures_in_range good) by done.
  cbn [bind for_each].
  rewrite populate_key_signature_out_of_range
    by (unfold key_number_in_range; lia).
  split; [done|].
  pose proof (Z.div_mod (pretty_midi.KeySignature.key_number bad) 12
                ltac:(lia)).
  pose proof (Z.mod_pos_bound (pretty_midi.KeySignature.key_number bad) 12
                ltac:(lia)).
  lia.
Qed.

Lemma invalid_midi_mode_of_first_offender_witness :
  midi_to_sequence_proto parse_fails default_tempo_changes
    (Object mixed_keys_midi) true
  = Raise (MIDIConversionError (InvalidMidiMode 2)).
Proof.
  apply (invalid_midi_mode_of_first_offender parse_fails
           default_tempo_changes (Object mixed_keys_midi) true
           mixed_keys_midi
           [pretty_midi.KeySignature.KeySignature 3 0%float]
           (pretty_midi.KeySignature.KeySignature 30 1%float)
           [pretty_midi.KeySignature.KeySignature (-1) 2%float]
           eq_refl eq_refl).
  - repeat constructor; simpl; lia.
  - right. simpl. lia.
Defined.

(** X3. Every key signature of a decoded sequence has its key in [0, 11]. *)
Theorem decoded_keys_are_pitch_classes parse get_tempo_changes midi_data
    continue_on_exception sequence :
  midi_to_sequence_proto parse get_tempo_changes midi_data
    continue_on_exception = Return (Some sequence) →
  Forall (λ ks, 0 ≤ KeySignature.key ks < 12) (key_signatures sequence).
Proof.
  intros (midi & _ & _ & ->)%midi_to_sequence_proto_some.
  cbn [decoded_sequence key_signatures]. apply Forall_forall.
  intros ks (k & -> & _)%list_elem_of_fmap. simpl.
  apply Z.mod_pos_bound. lia.
Qed.

Lemma decoded_keys_are_pitch_classes_witness :
  Forall (λ ks, 0 ≤ KeySignature.key ks < 12)
    [KeySignature.mk 0%float 3 MAJOR; KeySignature.mk 1%float 2 MINOR].
Proof.
  apply (decoded_keys_are_pitch_classes parse_fails default_tempo_changes
           (Object two_keys_midi) false
           (decoded_sequence default_tempo_changes two_keys_midi) eq_refl).
Defined.

(** X4. A decoded sequence has the resolution of the MIDI object, its time
    signatures in order, and one tempo for each pair of
    [zip(tempo_times, tempo_bpms)]: when the two arrays differ in length
    the longer one is cut. *)
Theorem decoded_header parse get_tempo_changes midi_data
    continue_on_exception midi sequence :
  parsed parse midi_data = Some midi →
  midi_to_sequence_proto parse get_tempo_changes midi_data
    continue_on_exception = Return (Some sequence) →
  ticks_per_beat sequence = pretty_midi.resolution midi
  ∧ time_signatures sequence
    = (λ ts, TimeSignature.mk (pretty_midi.TimeSignature.time ts)
               (pretty_midi.TimeSignature.numerator ts)
               (pretty_midi.TimeSignature.denominator ts))
      <$> pretty_midi.time_signature_changes midi
  ∧ tempos sequence
    = zip_with Tempo.mk (get_tempo_changes midi).1 (get_tempo_changes midi).2
  ∧ length (tempos sequence)
    = (length (get_tempo_changes midi).1
       `min` length (get_tempo_changes midi).2)%nat.
Proof.
  intros Hp Hs.
  destruct (midi_to_sequence_proto_returns _ _ _ _ _ _ Hp Hs) as [_ [= ->]].
  cbn [decoded_sequence ticks_per_beat time_signatures tempos].
  assert (∀ l k : list float,
            map (λ tb : float * float, Tempo.mk tb.1 tb.2) (zip l k)
            = zip_with Tempo.mk l k) as Hzip.
  { induction l as [|x l IH]; intros [|y k]; simpl; [done..|].
    f_equal. apply IH. }
  rewrite Hzip. split; [done|]. split; [done|]. split; [done|].
  apply length_zip_with.
Qed.

Lemma decoded_header_witness :
  ∃ sequence,
    midi_to_sequence_proto parse_fails uneven_tempo_changes
      (Object sparse_instruments_midi) false = Return (Some sequence)
    ∧ ticks_per_beat sequence = 480
    ∧ time_signatures sequence
      = [TimeSignature.mk 0%float 4 4; TimeSignature.mk 8%float 3 4]
    ∧ tempos sequence
      = [Tempo.mk 0%float 120%float; Tempo.mk 1%float 90%float].
Proof.
  eexists. split; [reflexivity|].
  destruct (decoded_header parse_fails uneven_tempo_changes
              (Object sparse_instruments_midi) false sparse_instruments_midi
              _ eq_refl eq_refl) as (Hres & Hts & Htempos & _).
  split; [exact Hres|]. split; [exact Hts | exact Htempos].
Defined.

Lemma running_total_time_elem ends t :
  fold_left update_total_time ends t ∈ t :: ends.
Proof.
  revert t; induction ends as [|e ends IH]; intros t; simpl; [by left|].
  specialize (IH (update_total_time t e)).
  apply elem_of_cons in IH as [->|IH]; [|right; by right].
  unfold update_total_time.
  destruct (negb (truthy t) || PrimFloat.ltb t e); [right|]; by left.
Qed.

(** X5. Whatever the end times are, [total_time] is 0 for a sequence without
    notes and otherwise the end time of one of its notes. *)
Theorem total_time_is_an_end_time parse get_tempo_changes midi_data
    continue_on_exception sequence :
  midi_to_sequence_proto parse get_tempo_changes midi_data
    continue_on_exception = Return (Some sequence) →
  (notes sequence = [] → total_time sequence = 0%float)
  ∧ (notes sequence ≠ [] →
     total_time sequence ∈ Note.end_time <$> notes sequence).
Proof.
  intros (midi & _ & _ & ->)%midi_to_sequence_proto_some.
  cbn [decoded_sequence total_time notes].
  set (ns := instrument_major decoded_note pretty_midi.Instrument.notes
               (pretty_midi.instruments midi)).
  split; [by intros ->|]. intros Hne.
  destruct ns as [|n ns]; [done|]. cbn [map fold_left].
  change (update_total_time 0 (Note.end_time n)) with (Note.end_time n).
  apply running_total_time_elem.
Qed.

Lemma total_time_is_an_end_time_witness :
  (-5)%float ∈ [0%float; (-5)%float].
Proof.
  apply (total_time_is_an_end_time parse_fails default_tempo_changes
           (Object negative_times_midi) false
           (decoded_sequence default_tempo_changes negative_times_midi)
           eq_refl).
  discriminate.
Defined.

Lemma total_time_of_nonnegative_end_times_witness :
  is_maximum 3%float [2%float; 1%float; 3%float].
Proof.
  apply (total_time_of_nonnegative_end_times parse_fails
           default_tempo_changes (Object two_instruments_midi) false
           two_instruments_midi
           (decoded_sequence default_tempo_changes two_instruments_midi)
           eq_refl eq_refl).
  - repeat constructor.
  - discriminate.
Defined.

(** X7. Every note, pitch bend and control change of a decoded sequence comes
    from an instrument of the MIDI object: its [instrument] field is the
    position of that instrument, so it lies in [0, len(instruments)), and
    its [program] is that instrument's program. *)
Theorem decoded_events_point_to_their_instrument parse get_tempo_changes
    midi_data continue_on_exception midi sequence :
  parsed parse midi_data = Some midi →
  midi_to_sequence_proto parse get_tempo_changes midi_data
    continue_on_exception = Return (Some sequence) →
  (∀ n, n ∈ notes sequence →
     ∃ i inst,
       pretty_midi.instruments midi !! i = Some inst
       ∧ Note.instrument n = Z.of_nat i
       ∧ Note.program n = pretty_midi.Instrument.program inst
       ∧ encoded_note n ∈ pretty_midi.Instrument.notes inst)
  ∧ (∀ b, b ∈ pitch_bends sequence →
       ∃ i inst,
         pretty_midi.instruments midi !! i = Some inst
         ∧ PitchBend.instrument b = Z.of_nat i
         ∧ PitchBend.program b = pretty_midi.Instrument.program inst
         ∧ encoded_bend b ∈ pretty_midi.Instrument.pitch_bends inst)
  ∧ (∀ c, c ∈ control_changes sequence →
       ∃ i inst,
         pretty_midi.instruments midi !! i = Some inst
         ∧ ControlChange.instrument c = Z.of_nat i
         ∧ ControlChange.program c = pretty_midi.Instrument.program inst
         ∧ encoded_control c
           ∈ pretty_midi.Instrument.control_changes inst).
Proof.
  intros Hp Hs.
  destruct (midi_to_sequence_proto_returns _ _ _ _ _ _ Hp Hs) as [_ [= ->]].
  cbn [decoded_sequence notes pitch_bends control_changes].
  unfold instrument_major.
  split; [|split]; intros x (l & Hx & Hl)%list_elem_of_join;
    apply elem_of_lookup_imap in Hl as (i & inst & -> & Hi);
    apply list_elem_of_fmap in Hx as (y & -> & Hy);
    exists i, inst; (split; [done|]); (split; [done|]); (split; [done|]);
    by destruct y.
Qed.

Lemma decoded_events_point_to_their_instrument_witness :
  ∃ i inst,
    pretty_midi.instruments two_instruments_midi !! i = Some inst
    ∧ 1 = Z.of_nat i
    ∧ 7 = pretty_midi.Instrument.program inst
    ∧ pretty_midi.Note.Note 90 64 0%float 3%float
      ∈ pretty_midi.Instrument.notes inst.
Proof.
  destruct (decoded_events_point_to_their_instrument parse_fails
              default_tempo_changes (Object two_instruments_midi) false
              two_instruments_midi
              (decoded_sequence default_tempo_changes two_instruments_midi)
              eq_refl eq_refl) as [Hn _].
  apply (Hn (Note.mk 1 7 0%float 3%float 64 90)).
  repeat constructor.
Defined.

(** ** Properties of midi_file_to_sequence_proto *)

(** X8. For a file whose contents the parser rejects,
    [midi_file_to_sequence_proto] returns None when
    [continue_on_exception] is set, and otherwise raises a
    MIDIConversionError built from the decoder's own. *)
Theorem midi_file_unparseable parse get_tempo_changes gfile_read midi_file
    midi_as_string :
  gfile_read midi_file = Some midi_as_string →
  parse midi_as_string = None →
  midi_file_to_sequence_proto parse get_tempo_changes gfile_read midi_file
    true = Return None
  ∧ midi_file_to_sequence_proto parse get_tempo_changes gfile_read midi_file
      false
    = Raise (MIDIConversionError (Wrapped MidiDecodingError)).
Proof.
  intros Hf Hp. unfold midi_file_to_sequence_proto. rewrite Hf. simpl.
  by rewrite Hp.
Qed.

Lemma midi_file_unparseable_witness :
  midi_file_to_sequence_proto parse_fails default_tempo_changes
    (one_file "garbage") "song.mid" true = Return None
  ∧ midi_file_to_sequence_proto parse_fails default_tempo_changes
      (one_file "garbage") "song.mid" false
    = Raise (MIDIConversionError (Wrapped MidiDecodingError)).
Proof.
  apply (midi_file_unparseable parse_fails default_tempo_changes
           (one_file "garbage") "song.mid" "garbage" eq_refl eq_refl).
Defined.

(** X9. When the contents of the file decode to a sequence,
    [midi_file_to_sequence_proto] returns that sequence, whatever the two
    flags are; it never returns None for such a file. *)
Theorem midi_file_returns_decoded_contents parse get_tempo_changes
    gfile_read midi_file midi_as_string continue_on_exception sequence :
  gfile_read midi_file = Some midi_as_string →
  midi_to_sequence_proto parse get_tempo_changes (Contents midi_as_string)
    continue_on_exception = Return (Some sequence) →
  ∀ continue_on_exception',
    midi_file_to_sequence_proto parse get_tempo_changes gfile_read midi_file
      continue_on_exception' = Return (Some sequence).
Proof.
  intros Hf Hs c'. unfold midi_file_to_sequence_proto. rewrite Hf.
  destruct (midi_to_sequence_proto_some _ _ _ _ _ Hs) as (midi & Hp & _).
  rewrite (midi_to_sequence_proto_parsed _ _ _ continue_on_exception _ Hp)
    in Hs.
  rewrite (midi_to_sequence_proto_parsed _ _ _ false _ Hp).
  by rewrite Hs.
Qed.

Lemma midi_file_returns_decoded_contents_witness :
  midi_file_to_sequence_proto (parse_as two_keys_midi) default_tempo_changes
    (one_file "MThd") "song.mid" true
  = Return (Some (decoded_sequence default_tempo_changes two_keys_midi)).
Proof.
  apply (midi_file_returns_decoded_contents (parse_as two_keys_midi)
           default_tempo_changes (one_file "MThd") "song.mid" "MThd" false
           _ eq_refl eq_refl).
Defined.

(** X10. With [continue_on_exception] set, [midi_file_to_sequence_proto] lets
    no MIDIConversionError out; without it, every MIDIConversionError it
    raises is a new one wrapping the decoder's, and it raises one exactly
    when the decoder, run without the flag, does. *)
Theorem midi_file_conversion_errors parse get_tempo_changes gfile_read
    midi_file :
  (∀ e,
     midi_file_to_sequence_proto parse get_tempo_changes gfile_read
       midi_file true ≠ Raise (MIDIConversionError e))
  ∧ (∀ e,
       midi_file_to_sequence_proto parse get_tempo_changes gfile_read
         midi_file false = Raise (MIDIConversionError e)
       ↔ ∃ midi_as_string e',
           gfile_read midi_file = Some midi_as_string
           ∧ midi_to_sequence_proto parse get_tempo_changes
               (Contents midi_as_string) false
             = Raise (MIDIConversionError e')
           ∧ e = Wrapped e').
Proof.
  unfold midi_file_to_sequence_proto.
  destruct (gfile_read midi_file) as [s|].
  - split; intros e.
    + by destruct (midi_to_sequence_proto parse get_tempo_changes
                     (Contents s) false) as [r|[e'| |]].
    + split.
      * destruct (midi_to_sequence_proto parse get_tempo_changes
                    (Contents s) false) as [r|[e'| |]] eqn:Hd;
          intros [= <-]. eauto.
      * intros (s0 & e' & [= <-] & Hd & ->). by rewrite Hd.
  - split; intros e; [done|]. split; [done|].
    by intros (s0 & e' & [=] & _).
Qed.

(** ** Further properties of the encoder *)

Lemma sequence_proto_to_pretty_midi_shape time_to_tick sequence pm :
  sequence_proto_to_pretty_midi time_to_tick sequence = Return pm →
  ∃ new,
    pm = pretty_midi.mk (ticks_per_beat sequence)
           (initial_tempo_kwarg sequence) new
           (encoded_time_signature <$> time_signatures sequence)
           (encode_key_signature <$> key_signatures sequence)
           (encoded_instruments sequence
              (sorted_keys (gather_events sequence)))
    ∧ length new = length (tail (tempos sequence)).
Proof.
  intros Hpm.
  destruct (sequence_proto_to_pretty_midi_returns time_to_tick sequence)
    as (new & Hret & Hlen & _).
  { by eapply sequence_proto_to_pretty_midi_inv. }
  rewrite Hret in Hpm. injection Hpm as <-. eauto.
Qed.

(** X11. An object the encoder returns has one appended breakpoint for
    each tempo after the first, and [resolution * bpm] is not zero for
    any of these tempos: a sequence with a later tempo for which the
    product is zero is never encoded into an object. *)
Theorem encoder_returns_only_with_defined_tick_scales time_to_tick sequence
    pm :
  sequence_proto_to_pretty_midi time_to_tick sequence = Return pm →
  Forall
    (λ t, PrimFloat.eqb
            (float_of_Z (ticks_per_beat sequence) * Tempo.bpm t)%float
            0%float = false)
    (tail (tempos sequence))
  ∧ length (pretty_midi.tick_scales pm) = length (tail (tempos sequence)).
Proof.
  intros Hpm. split.
  - by eapply sequence_proto_to_pretty_midi_inv.
  - by destruct (sequence_proto_to_pretty_midi_shape _ _ _ Hpm)
      as (new & -> & Hlen).
Qed.

(** X12. With at most one tempo entry, an object the encoder returns has
    the sequence's resolution and no appended breakpoint; it was
    constructed with an initial tempo exactly when the single entry is at
    time 0, and then with that entry's bpm. *)
Theorem encoder_with_at_most_one_tempo time_to_tick sequence pm :
  (length (tempos sequence) ≤ 1)%nat →
  sequence_proto_to_pretty_midi time_to_tick sequence = Return pm →
  pretty_midi.resolution pm = ticks_per_beat sequence
  ∧ pretty_midi.tick_scales pm = []
  ∧ (tempos sequence = [] → pretty_midi.initial_tempo pm = None)
  ∧ (∀ t, tempos sequence = [t] →
       pretty_midi.initial_tempo pm
       = if PrimFloat.eqb (Tempo.time t) 0%float then Some (Tempo.bpm t)
         else None).
Proof.
  intros Hlen Hpm.
  assert (tail (tempos sequence) = []) as Htl.
  { destruct (tempos sequence) as [|t0 [|t1 rest]]; simpl in *; [done..|].
    lia. }
  destruct (sequence_proto_to_pretty_midi_shape _ _ _ Hpm)
    as (new & -> & Hnew).
  rewrite Htl in Hnew. destruct new; [|done]. simpl.
  split; [done|]. split; [done|].
  unfold initial_tempo_kwarg. split; [by intros ->|]. by intros t ->.
Qed.

Lemma encoder_with_at_most_one_tempo_witness :
  ∃ pm,
    sequence_proto_to_pretty_midi constant_tempo_time_to_tick
      no_events_sequence = Return pm
    ∧ pretty_midi.resolution pm = 480
    ∧ pretty_midi.tick_scales pm = []
    ∧ pretty_midi.initial_tempo pm = Some 120%float.
Proof.
  eexists. split; [reflexivity|].
  destruct (encoder_with_at_most_one_tempo constant_tempo_time_to_tick
              no_events_sequence _ ltac:(simpl; lia) eq_refl)
    as (Hres & Hticks & _ & Hinit).
  split; [exact Hres|]. split; [exact Hticks|].
  exact (Hinit (Tempo.mk 0%float 120%float) eq_refl).
Defined.

(** X13. A sequence without notes, pitch bends and control changes is encoded
    with a single instrument: the empty one created first, with program 0
    and no drum flag. *)
Theorem encoder_without_events time_to_tick sequence pm :
  notes sequence = [] →
  pitch_bends sequence = [] →
  control_changes sequence = [] →
  sequence_proto_to_pretty_midi time_to_tick sequence = Return pm →
  pretty_midi.instruments pm = [pretty_midi.Instrument.mk 0 false [] [] []].
Proof.
  intros Hn Hb Hc Hpm.
  destruct (sequence_proto_to_pretty_midi_shape _ _ _ Hpm) as (new & -> & _).
  destruct (sorted_keys_ascending sequence) as (_ & _ & He).
  assert (sorted_keys (gather_events sequence) = []) as ->.
  { destruct (sorted_keys (gather_events sequence)) as [|k ks]; [done|].
    assert (k ∈ event_keys sequence) as Hk by (apply He; by left).
    unfold event_keys in Hk. rewrite Hn, Hb, Hc in Hk.
    by apply elem_of_nil in Hk. }
  reflexivity.
Qed.

Lemma encoder_without_events_witness :
  ∃ pm,
    sequence_proto_to_pretty_midi constant_tempo_time_to_tick
      no_events_sequence = Return pm
    ∧ pretty_midi.instruments pm
      = [pretty_midi.Instrument.mk 0 false [] [] []].
Proof.
  eexists. split; [reflexivity|].
  apply (encoder_without_events constant_tempo_time_to_tick
           no_events_sequence _ eq_refl eq_refl eq_refl eq_refl).
Defined.

Lemma elem_of_encoded_instruments sequence keys inst :
  inst ∈ encoded_instruments sequence keys →
  inst = pretty_midi.Instrument.Instrument 0 false
  ∨ (∃ key, key ∈ keys ∧ key.1 ≤ 0 ∧ inst = placeholder_with sequence key)
  ∨ (∃ key, key ∈ keys ∧ 0 < key.1 ∧ inst = group_instrument sequence key).
Proof.
  unfold encoded_instruments. intros [->|Hin]%elem_of_cons.
  - destruct (last _) as [key|] eqn:Hlast; [|by left].
    right; left. exists key.
    apply last_Some_elem_of, list_elem_of_filter in Hlast as [? ?]. done.
  - right; right. apply list_elem_of_fmap in Hin as (key & -> & Hkey).
    apply list_elem_of_filter in Hkey as [? ?]. eauto.
Qed.

(** X14. Every instrument of the encoder's output is either the empty
    instrument created first, or carries exactly the events of one key of
    the sequence, in sequence order, under that key's program: the encoder
    invents no event and mixes no two groups. *)
Theorem encoded_instrument_is_one_group time_to_tick sequence pm inst :
  sequence_proto_to_pretty_midi time_to_tick sequence = Return pm →
  inst ∈ pretty_midi.instruments pm →
  inst = pretty_midi.Instrument.mk 0 false [] [] []
  ∨ ∃ key,
      key ∈ event_keys sequence
      ∧ pretty_midi.Instrument.program inst = key.2
      ∧ pretty_midi.Instrument.notes inst
        = encoded_note <$> filter (λ n, note_key n = key) (notes sequence)
      ∧ pretty_midi.Instrument.pitch_bends inst
        = encoded_bend
          <$> filter (λ b, bend_key b = key) (pitch_bends sequence)
      ∧ pretty_midi.Instrument.control_changes inst
        = encoded_control
          <$> filter (λ c, control_key c = key) (control_changes sequence).
Proof.
  intros Hpm Hin.
  destruct (sequence_proto_to_pretty_midi_shape _ _ _ Hpm) as (new & -> & _).
  destruct (sorted_keys_ascending sequence) as (_ & _ & He).
  cbn [pretty_midi.instruments] in Hin.
  apply elem_of_encoded_instruments
    in Hin as [->|[(key & Hk & _ & ->)|(key & Hk & _ & ->)]];
    [by left | right; exists key; by rewrite <- He..].
Qed.

Lemma encoded_instrument_is_one_group_witness :
  ∃ key,
    key ∈ event_keys two_programs_sequence
    ∧ 2 = key.2
    ∧ [pretty_midi.Note.Note 100 62 1%float 2%float]
      = encoded_note
        <$> filter (λ n, note_key n = key) (notes two_programs_sequence).
Proof.
  destruct (encoded_instrument_is_one_group constant_tempo_time_to_tick
              two_programs_sequence _
              (pretty_midi.Instrument.mk 2 false
                 [pretty_midi.Note.Note 100 62 1%float 2%float] [] [])
              eq_refl) as [[=]|(key & Hk & Hp & Hn & _)].
  - repeat constructor.
  - exists key. split; [exact Hk|]. split; [exact Hp | exact Hn].
Defined.

(** X15. No event with a positive instrument index is lost: the output has an
    instrument with the event's program, a drum exactly for index 9, that
    carries it. *)
Theorem encoder_keeps_positive_index_events time_to_tick sequence pm :
  sequence_proto_to_pretty_midi time_to_tick sequence = Return pm →
  (∀ n, n ∈ notes sequence → 0 < Note.instrument n →
     ∃ inst,
       inst ∈ pretty_midi.instruments pm
       ∧ pretty_midi.Instrument.program inst = Note.program n
       ∧ pretty_midi.Instrument.is_drum inst = (Note.instrument n =? 9)
       ∧ encoded_note n ∈ pretty_midi.Instrument.notes inst)
  ∧ (∀ b, b ∈ pitch_bends sequence → 0 < PitchBend.instrument b →
       ∃ inst,
         inst ∈ pretty_midi.instruments pm
         ∧ pretty_midi.Instrument.program inst = PitchBend.program b
         ∧ pretty_midi.Instrument.is_drum inst
           = (PitchBend.instrument b =? 9)
         ∧ encoded_bend b ∈ pretty_midi.Instrument.pitch_bends inst)
  ∧ (∀ c, c ∈ control_changes sequence → 0 < ControlChange.instrument c →
       ∃ inst,
         inst ∈ pretty_midi.instruments pm
         ∧ pretty_midi.Instrument.program inst = ControlChange.program c
         ∧ pretty_midi.Instrument.is_drum inst
           = (ControlChange.instrument c =? 9)
         ∧ encoded_control c
           ∈ pretty_midi.Instrument.control_changes inst).
Proof.
  intros Hpm.
  destruct (sequence_proto_to_pretty_midi_shape _ _ _ Hpm) as (new & -> & _).
  destruct (sorted_keys_ascending sequence) as (_ & _ & He).
  cbn [pretty_midi.instruments]. unfold encoded_instruments.
  assert (∀ key, key ∈ event_keys sequence → 0 < key.1 →
            group_instrument sequence key
            ∈ from_option (placeholder_with sequence)
                (pretty_midi.Instrument.Instrument 0 false)
                (last (filter (λ key : Z * Z, key.1 ≤ 0)
                         (sorted_keys (gather_events sequence))))
              :: (group_instrument sequence
                    <$> filter (λ key : Z * Z, 0 < key.1)
                          (sorted_keys (gather_events sequence)))) as Hin.
  { intros key Hk Hpos. right. apply list_elem_of_fmap. exists key.
    split; [done|]. apply list_elem_of_filter. split; [done|].
    by apply He. }
  unfold event_keys in Hin.
  split; [|split]; intros x Hx Hpos.
  - exists (group_instrument sequence (note_key x)).
    split; [apply Hin; [|done]|].
    + rewrite !elem_of_app. left. apply list_elem_of_fmap. eauto.
    + split; [done|]. split; [done|]. simpl.
      apply list_elem_of_fmap. exists x. split; [done|].
      by apply list_elem_of_filter.
  - exists (group_instrument sequence (bend_key x)).
    split; [apply Hin; [|done]|].
    + rewrite !elem_of_app. right; left. apply list_elem_of_fmap. eauto.
    + split; [done|]. split; [done|]. simpl.
      apply list_elem_of_fmap. exists x. split; [done|].
      by apply list_elem_of_filter.
  - exists (group_instrument sequence (control_key x)).
    split; [apply Hin; [|done]|].
    + rewrite !elem_of_app. right; right. apply list_elem_of_fmap. eauto.
    + split; [done|]. split; [done|]. simpl.
      apply list_elem_of_fmap. exists x. split; [done|].
      by apply list_elem_of_filter.
Qed.

Lemma encoder_keeps_positive_index_events_witness :
  ∃ inst,
    inst ∈ [pretty_midi.Instrument.mk 5 false
              [pretty_midi.Note.Note 100 60 0%float 1%float] [] [];
            pretty_midi.Instrument.mk 5 false
              [pretty_midi.Note.Note 90 64 0%float 1%float] [] [];
            pretty_midi.Instrument.mk 0 true
              [pretty_midi.Note.Note 110 36 0%float 1%float] [] []]
    ∧ pretty_midi.Instrument.program inst = 0
    ∧ pretty_midi.Instrument.is_drum inst = true
    ∧ pretty_midi.Note.Note 110 36 0%float 1%float
      ∈ pretty_midi.Instrument.notes inst.
Proof.
  destruct (encoder_keeps_positive_index_events constant_tempo_time_to_tick
              shared_program_sequence _ eq_refl) as [Hn _].
  apply (Hn (Note.mk 9 0 0%float 1%float 36 110)).
  - repeat constructor.
  - simpl. lia.
Defined.

(** X16. The first instrument of the output is never a drum, and the output
    has a drum instrument with program [p] exactly when the sequence has
    an event with instrument index 9 and program [p]. *)
Theorem encoder_drums time_to_tick sequence pm :
  sequence_proto_to_pretty_midi time_to_tick sequence = Return pm →
  (∃ first rest,
     pretty_midi.instruments pm = first :: rest
     ∧ pretty_midi.Instrument.is_drum first = false)
  ∧ (∀ p,
       (∃ inst,
          inst ∈ pretty_midi.instruments pm
          ∧ pretty_midi.Instrument.is_drum inst = true
          ∧ pretty_midi.Instrument.program inst = p)
       ↔ (9, p) ∈ event_keys sequence).
Proof.
  intros Hpm.
  destruct (sequence_proto_to_pretty_midi_shape _ _ _ Hpm) as (new & -> & _).
  destruct (sorted_keys_ascending sequence) as (_ & _ & He).
  cbn [pretty_midi.instruments]. split.
  - unfold encoded_instruments. eexists _, _. split; [done|].
    by destruct (last _).
  - intros p. split.
    + intros (inst & Hin & Hdrum & <-).
      apply elem_of_encoded_instruments
        in Hin as [->|[(key & Hk & _ & ->)|(key & Hk & _ & ->)]];
        [done..|].
      destruct key as [i q]. simpl in *.
      apply Z.eqb_eq in Hdrum as ->. by apply He.
    + intros Hk. exists (group_instrument sequence (9, p)).
      split; [|done]. unfold encoded_instruments. right.
      apply list_elem_of_fmap. exists (9, p). split; [done|].
      apply list_elem_of_filter. split; [done|]. by apply He.
Qed.

Lemma encoder_drums_witness :
  ∃ first rest,
    [pretty_midi.Instrument.mk 2 false
       [pretty_midi.Note.Note 100 62 1%float 2%float] [] []]
    = first :: rest
    ∧ pretty_midi.Instrument.is_drum first = false.
Proof.
  apply (encoder_drums constant_tempo_time_to_tick two_programs_sequence _
           eq_refl).
Defined.

(** ** Decoding and encoding again *)

Lemma instrument_major_tagged {E F} (tag : Z → Z → E → F)
    (events_of : pretty_midi.Instrument.t → list E) start instruments :
  tagged_events tag events_of (enumerate_from start instruments)
  = mjoin (imap (λ i inst,
                   map (tag (start + Z.of_nat i)
                          (pretty_midi.Instrument.program inst))
                     (events_of inst))
             instruments).
Proof.
  revert start; induction instruments as [|inst l IH]; intros start.
  - reflexivity.
  - cbn [enumerate_from tagged_events flat_map imap mjoin list_join fst snd].
    fold (tagged_events tag events_of (enumerate_from (start + 1) l)).
    rewrite IH, Z.add_0_r. f_equal. f_equal. apply imap_ext.
    intros i x _. simpl.
    by replace (start + 1 + Z.of_nat i) with (start + Z.of_nat (S i))
      by lia.
Qed.

Lemma enumerate_from_ge {A} start (l : list A) e :
  e ∈ enumerate_from start l → start ≤ e.1.
Proof.
  revert start; induction l as [|x l IH]; intros start; simpl.
  - by intros ?%elem_of_nil.
  - intros [->|He%IH]%elem_of_cons; simpl; lia.
Qed.

Lemma increasing_enumerate_from start instruments :
  increasing (enumerate_from start instruments).
Proof.
  revert start; induction instruments as [|inst l IH]; intros start;
    simpl; constructor; [apply IH|].
  apply Forall_forall. intros e He%enumerate_from_ge. simpl. lia.
Qed.

Lemma filter_fmap_none {A B} (P : B → Prop) `{!∀ y, Decision (P y)}
    (f : A → B) l :
  (∀ x, ¬ P (f x)) → filter P (map f l) = [].
Proof.
  intros Hf. induction l as [|x l IH]; [done|]. simpl.
  by rewrite filter_cons_False.
Qed.

Lemma filter_fmap_all {A B} (P : B → Prop) `{!∀ y, Decision (P y)}
    (f : A → B) l :
  (∀ x, P (f x)) → filter P (map f l) = map f l.
Proof.
  intros Hf. induction l as [|x l IH]; [done|]. simpl.
  rewrite filter_cons_True by done. by f_equal.
Qed.

Section Tagged.

Context {E F : Type} (tag : Z → Z → E → F) (key : F → Z * Z).
Context (events_of : pretty_midi.Instrument.t → list E).
Hypothesis key_tag : ∀ i p x, key (tag i p x) = (i, p).

Lemma filter_tagged_events_none es i p :
  Forall (λ e : Z * pretty_midi.Instrument.t, e.1 ≠ i) es →
  filter (λ y, key y = (i, p)) (tagged_events tag events_of es) = [].
Proof.
  induction 1 as [|e es He _ IH]; [done|].
  cbn [tagged_events flat_map]. rewrite filter_app.
  fold (tagged_events tag events_of es). rewrite IH, app_nil_r.
  apply filter_fmap_none. intros x. rewrite key_tag. congruence.
Qed.

Lemma filter_tagged_events es e :
  increasing es →
  e ∈ es →
  filter (λ y, key y = (e.1, pretty_midi.Instrument.program e.2))
    (tagged_events tag events_of es)
  = map (tag e.1 (pretty_midi.Instrument.program e.2)) (events_of e.2).
Proof.
  induction 1 as [|a es Hs IH Ha]; [by intros ?%elem_of_nil|].
  cbn [tagged_events flat_map]. rewrite filter_app.
  fold (tagged_events tag events_of es).
  intros [->|He]%elem_of_cons.
  - rewrite filter_tagged_events_none.
    + rewrite app_nil_r. apply filter_fmap_all. intros x. apply key_tag.
    + eapply Forall_impl; [exact Ha|]. simpl. lia.
  - rewrite IH by done. rewrite filter_fmap_none; [done|].
    intros x. rewrite key_tag.
    apply (proj1 (Forall_forall _ _) Ha) in He. simpl in He.
    intros [= ? _]. lia.
Qed.

Lemma elem_of_tagged_keys es k :
  k ∈ key <$> tagged_events tag events_of es
  ↔ ∃ e, e ∈ es ∧ events_of e.2 ≠ []
         ∧ k = (e.1, pretty_midi.Instrument.program e.2).
Proof.
  induction es as [|a es IH].
  - simpl. split; [by intros ?%elem_of_nil|].
    by intros (e & ?%elem_of_nil & _).
  - cbn [tagged_events flat_map]. rewrite fmap_app, elem_of_app.
    fold (tagged_events tag events_of es). rewrite IH. split.
    + intros [Hk|(e & He & Hne & ->)].
      * apply list_elem_of_fmap in Hk as (y & -> & Hy).
        apply list_elem_of_fmap in Hy as (x & -> & Hx).
        exists a. split; [by left|]. rewrite key_tag. split; [|done].
        intros Hnil. rewrite Hnil in Hx. by apply elem_of_nil in Hx.
      * exists e. split; [by right|done].
    + intros (e & [->|He]%elem_of_cons & Hne & ->).
      * left. destruct (events_of a.2) as [|x l] eqn:Hev; [done|].
        apply list_elem_of_fmap.
        exists (tag a.1 (pretty_midi.Instrument.program a.2) x).
        rewrite key_tag. split; [done|]. simpl. by left.
      * right. eauto.
Qed.

End Tagged.

Lemma StronglySorted_filter_any {A} (R : relation A) (P : A → Prop)
    `{!∀ x, Decision (P x)} l :
  StronglySorted R l → StronglySorted R (filter P l).
Proof.
  induction 1 as [|x l Hs IH Hx]; [constructor|].
  rewrite filter_cons. destruct (decide (P x)); [|done].
  constructor; [done|]. apply Forall_forall.
  intros y [_ Hy]%list_elem_of_filter.
  by apply (proj1 (Forall_forall _ _) Hx).
Qed.

Lemma StronglySorted_irrefl_NoDup {A} (R : relation A) l :
  (∀ x, ¬ R x x) → StronglySorted R l → NoDup l.
Proof.
  intros Hirr. induction 1 as [|x l Hs IH Hx]; constructor; [|done].
  intros Hin. apply (proj1 (Forall_forall _ _) Hx) in Hin.
  by apply Hirr in Hin.
Qed.

Lemma encoded_decoded_note i p n : encoded_note (decoded_note i p n) = n.
Proof. by destruct n. Qed.

Lemma encoded_decoded_pitch_bend i p b :
  encoded_bend (decoded_pitch_bend i p b) = b.
Proof. by destruct b. Qed.

Lemma encoded_decoded_control_change i p c :
  encoded_control (decoded_control_change i p c) = c.
Proof. by destruct c. Qed.

Lemma encoded_decoded_time_signature ts :
  encoded_time_signature (decoded_time_signature ts) = ts.
Proof. by destruct ts. Qed.

Lemma decoded_sequence_events get_tempo_changes midi :
  notes (decoded_sequence get_tempo_changes midi)
  = tagged_events decoded_note pretty_midi.Instrument.notes
      (enumerate (pretty_midi.instruments midi))
  ∧ pitch_bends (decoded_sequence get_tempo_changes midi)
    = tagged_events decoded_pitch_bend pretty_midi.Instrument.pitch_bends
        (enumerate (pretty_midi.instruments midi))
  ∧ control_changes (decoded_sequence get_tempo_changes midi)
    = tagged_events decoded_control_change
        pretty_midi.Instrument.control_changes
        (enumerate (pretty_midi.instruments midi)).
Proof.
  unfold enumerate. rewrite !instrument_major_tagged. done.
Qed.

(** The group of an instrument's key in the decoded sequence is that
    instrument's events. *)
Lemma group_of_decoded get_tempo_changes midi e :
  e ∈ enumerate (pretty_midi.instruments midi) →
  group (decoded_sequence get_tempo_changes midi)
    (e.1, pretty_midi.Instrument.program e.2)
  = mk_events (pretty_midi.Instrument.notes e.2)
      (pretty_midi.Instrument.pitch_bends e.2)
      (pretty_midi.Instrument.control_changes e.2).
Proof.
  intros He. unfold group.
  destruct (decoded_sequence_events get_tempo_changes midi)
    as (-> & -> & ->).
  pose proof (increasing_enumerate_from 0 (pretty_midi.instruments midi))
    as Hinc. fold (enumerate (pretty_midi.instruments midi)) in Hinc.
  rewrite (filter_tagged_events decoded_note note_key) by done.
  rewrite (filter_tagged_events decoded_pitch_bend bend_key) by done.
  rewrite (filter_tagged_events decoded_control_change control_key) by done.
  f_equal.
  - rewrite <- list_fmap_compose. rewrite <- (list_fmap_id (_ e.2)) at 2.
    apply list_fmap_ext. intros _ n _. apply encoded_decoded_note.
  - rewrite <- list_fmap_compose. rewrite <- (list_fmap_id (_ e.2)) at 2.
    apply list_fmap_ext. intros _ b _. apply encoded_decoded_pitch_bend.
  - rewrite <- list_fmap_compose. rewrite <- (list_fmap_id (_ e.2)) at 2.
    apply list_fmap_ext. intros _ c _. apply encoded_decoded_control_change.
Qed.

(** The keys of the decoded sequence are those of the instruments that
    have events, in order of position. *)
Lemma decoded_keys_ascending get_tempo_changes midi :
  distinct_keys_ascending (decoded_sequence get_tempo_changes midi)
    ((λ e : Z * pretty_midi.Instrument.t,
        (e.1, pretty_midi.Instrument.program e.2))
       <$> filter (λ e : Z * pretty_midi.Instrument.t, has_events e.2)
             (enumerate (pretty_midi.instruments midi))).
Proof.
  pose proof (increasing_enumerate_from 0 (pretty_midi.instruments midi))
    as Hinc. fold (enumerate (pretty_midi.instruments midi)) in Hinc.
  set (es := enumerate (pretty_midi.instruments midi)) in *.
  apply (StronglySorted_filter_any _
           (λ e : Z * pretty_midi.Instrument.t, has_events e.2)) in Hinc.
  split; [|split].
  - eapply (StronglySorted_fmap _ _ key_le); [|exact Hinc].
    intros x y Hxy. left. exact Hxy.
  - apply (StronglySorted_irrefl_NoDup (λ a b : Z * Z, a.1 < b.1));
      [intros x; lia|].
    eapply (StronglySorted_fmap _ _ (λ a b : Z * Z, a.1 < b.1));
      [|exact Hinc].
    intros x y Hxy. exact Hxy.
  - intros k. unfold event_keys.
    destruct (decoded_sequence_events get_tempo_changes midi)
      as (-> & -> & ->). fold es.
    rewrite !elem_of_app.
    rewrite (elem_of_tagged_keys decoded_note note_key) by done.
    rewrite (elem_of_tagged_keys decoded_pitch_bend bend_key) by done.
    rewrite (elem_of_tagged_keys decoded_control_change control_key)
      by done.
    rewrite list_elem_of_fmap. setoid_rewrite list_elem_of_filter.
    unfold has_events. naive_solver.
Qed.

Lemma filter_Forall_all {A} (P : A → Prop) `{!∀ x, Decision (P x)} l :
  Forall P l → filter P l = l.
Proof.
  induction 1 as [|x l Hx _ IH]; [done|].
  rewrite filter_cons_True by done. by f_equal.
Qed.

Lemma filter_Forall_none {A} (P : A → Prop) `{!∀ x, Decision (P x)} l :
  Forall (λ x, ¬ P x) l → filter P l = [].
Proof.
  induction 1 as [|x l Hx _ IH]; [done|]. by rewrite filter_cons_False.
Qed.

Lemma encoded_instruments_of_decoded get_tempo_changes midi :
  encoded_instruments (decoded_sequence get_tempo_changes midi)
    ((λ e : Z * pretty_midi.Instrument.t,
        (e.1, pretty_midi.Instrument.program e.2))
       <$> filter (λ e : Z * pretty_midi.Instrument.t, has_events e.2)
             (enumerate (pretty_midi.instruments midi)))
  = reencoded_first (pretty_midi.instruments midi)
    :: (reencoded
          <$> filter (λ e : Z * pretty_midi.Instrument.t, has_events e.2)
                (tail (enumerate (pretty_midi.instruments midi)))).
Proof.
  set (sequence := decoded_sequence get_tempo_changes midi).
  pose proof (group_of_decoded get_tempo_changes midi) as Hgroup.
  fold sequence in Hgroup. unfold enumerate in *.
  destruct (pretty_midi.instruments midi) as [|inst0 rest]; [done|].
  cbn [enumerate_from tail reencoded_first] in *.
  change (0 + 1) with 1 in *.
  set (es1 := enumerate_from 1 rest) in *.
  set (f := λ e : Z * pretty_midi.Instrument.t,
              (e.1, pretty_midi.Instrument.program e.2)).
  set (cand1 := f <$> filter (λ e : Z * pretty_midi.Instrument.t,
                                has_events e.2) es1).
  assert (Forall (λ k : Z * Z, 0 < k.1) cand1) as Hpos.
  { apply Forall_forall. intros k (e & -> & He)%list_elem_of_fmap.
    apply list_elem_of_filter in He as [_ He%enumerate_from_ge].
    simpl. lia. }
  assert (group_instrument sequence <$> cand1
          = reencoded
            <$> filter (λ e : Z * pretty_midi.Instrument.t, has_events e.2)
                  es1) as Hrest.
  { unfold cand1. rewrite <- list_fmap_compose. apply list_fmap_ext.
    intros _ e He%list_elem_of_lookup_2.
    apply list_elem_of_filter in He as [_ He].
    unfold group_instrument, f, reencoded. cbn [compose fst snd].
    rewrite (Hgroup e) by (by right). done. }
  unfold encoded_instruments. rewrite filter_cons.
  cbn [snd]. destruct (decide (has_events inst0)) as [H0|H0].
  - rewrite fmap_cons. fold cand1. unfold f at 1 2. cbn [fst snd].
    rewrite filter_cons_True by (simpl; lia).
    rewrite filter_cons_False by (simpl; lia).
    rewrite (filter_Forall_none (λ key : Z * Z, key.1 ≤ 0))
      by (eapply Forall_impl; [exact Hpos|]; simpl; lia).
    rewrite filter_Forall_all by done.
    cbn [last from_option]. rewrite Hrest. f_equal.
    unfold placeholder_with. cbn [fst snd].
    pose proof (Hgroup (0, inst0) ltac:(by left)) as H00.
    cbn [fst snd] in H00. by rewrite H00.
  - fold cand1.
    rewrite (filter_Forall_none (λ key : Z * Z, key.1 ≤ 0))
      by (eapply Forall_impl; [exact Hpos|]; simpl; lia).
    rewrite filter_Forall_all by done.
    cbn [last from_option]. by rewrite Hrest.
Qed.

Lemma instruments_of_encoded_decoded get_tempo_changes time_to_tick midi
    pm :
  sequence_proto_to_pretty_midi time_to_tick
    (decoded_sequence get_tempo_changes midi) = Return pm →
  pretty_midi.instruments pm
  = reencoded_first (pretty_midi.instruments midi)
    :: (reencoded
          <$> filter (λ e : Z * pretty_midi.Instrument.t, has_events e.2)
                (tail (enumerate (pretty_midi.instruments midi)))).
Proof.
  intros Hpm.
  destruct (sequence_proto_to_pretty_midi_shape _ _ _ Hpm) as (new & -> & _).
  cbn [pretty_midi.instruments].
  rewrite (distinct_keys_ascending_unique _ _ _
             (sorted_keys_ascending _)
             (decoded_keys_ascending get_tempo_changes midi)).
  apply encoded_instruments_of_decoded.
Qed.

(** X17. Decoding a MIDI object and encoding the sequence again gives back
    its resolution and its time signatures. *)
Theorem decode_encode_header parse get_tempo_changes time_to_tick
    midi_data continue_on_exception midi sequence pm :
  parsed parse midi_data = Some midi →
  midi_to_sequence_proto parse get_tempo_changes midi_data
    continue_on_exception = Return (Some sequence) →
  sequence_proto_to_pretty_midi time_to_tick sequence = Return pm →
  pretty_midi.resolution pm = pretty_midi.resolution midi
  ∧ pretty_midi.time_signature_changes pm
    = pretty_midi.time_signature_changes midi.
Proof.
  intros Hp Hs Hpm.
  destruct (midi_to_sequence_proto_returns _ _ _ _ _ _ Hp Hs) as [_ [= ->]].
  destruct (sequence_proto_to_pretty_midi_shape _ _ _ Hpm) as (new & -> & _).
  split; [done|]. simpl. rewrite <- list_fmap_compose.
  rewrite <- (list_fmap_id (pretty_midi.time_signature_changes midi)) at 2.
  apply list_fmap_ext. intros _ ts _. apply encoded_decoded_time_signature.
Qed.

Lemma decode_encode_header_witness :
  ∃ pm,
    sequence_proto_to_pretty_midi constant_tempo_time_to_tick
      (decoded_sequence default_tempo_changes sparse_instruments_midi)
    = Return pm
    ∧ pretty_midi.resolution pm = 480
    ∧ pretty_midi.time_signature_changes pm
      = [pretty_midi.TimeSignature.TimeSignature 4 4 0%float;
         pretty_midi.TimeSignature.TimeSignature 3 4 8%float].
Proof.
  eexists. split; [reflexivity|].
  apply (decode_encode_header parse_fails default_tempo_changes
           constant_tempo_time_to_tick (Object sparse_instruments_midi)
           false sparse_instruments_midi _ _ eq_refl eq_refl eq_refl).
Defined.

(** X18. Decoding a MIDI object and encoding the sequence again gives these
    instruments: first the instrument at position 0 with its program and
    events but without drum flag (or, when it has no events or there is no
    instrument at all, an empty instrument with program 0); then, in
    order, the instruments at the later positions that have at least one
    event, each with its program and events and with the drum flag set
    exactly at position 9.  Instruments without events are dropped and the
    original drum flags are not kept. *)
Theorem decode_encode_instruments parse get_tempo_changes time_to_tick
    midi_data continue_on_exception midi sequence pm :
  parsed parse midi_data = Some midi →
  midi_to_sequence_proto parse get_tempo_changes midi_data
    continue_on_exception = Return (Some sequence) →
  sequence_proto_to_pretty_midi time_to_tick sequence = Return pm →
  pretty_midi.instruments pm
  = reencoded_first (pretty_midi.instruments midi)
    :: ((λ e : Z * pretty_midi.Instrument.t,
           pretty_midi.Instrument.mk (pretty_midi.Instrument.program e.2)
             (e.1 =? 9) (pretty_midi.Instrument.notes e.2)
             (pretty_midi.Instrument.pitch_bends e.2)
             (pretty_midi.Instrument.control_changes e.2))
          <$> filter (λ e : Z * pretty_midi.Instrument.t, has_events e.2)
                (tail (enumerate (pretty_midi.instruments midi)))).
Proof.
  intros Hp Hs Hpm.
  destruct (midi_to_sequence_proto_returns _ _ _ _ _ _ Hp Hs) as [_ [= ->]].
  exact (instruments_of_encoded_decoded _ _ _ _ Hpm).
Qed.

Lemma decode_encode_instruments_witness :
  ∃ pm,
    sequence_proto_to_pretty_midi constant_tempo_time_to_tick
      (decoded_sequence default_tempo_changes sparse_instruments_midi)
    = Return pm
    ∧ pretty_midi.instruments pm
      = [pretty_midi.Instrument.mk 5 false
           [pretty_midi.Note.Note 100 60 0%float 1%float] [] [];
         pretty_midi.Instrument.mk 7 false
           [pretty_midi.Note.Note 90 64 1%float 2%float]
           [pretty_midi.PitchBend.PitchBend 20 1.5%float] []].
Proof.
  eexists. split; [reflexivity|].
  apply (decode_encode_instruments parse_fails default_tempo_changes
           constant_tempo_time_to_tick (Object sparse_instruments_midi)
           false sparse_instruments_midi _ _ eq_refl eq_refl eq_refl).
Defined.

Lemma encode_decoded_key_signature midi_key :
  key_number_in_range midi_key →
  encode_key_signature (decoded_key_signature midi_key) = midi_key.
Proof.
  destruct midi_key as [k t].
  unfold key_number_in_range, encode_key_signature, decoded_key_signature,
    _PRETTY_MIDI_MAJOR_TO_MINOR_OFFSET. simpl.
  intros Hk. destruct (Z.ltb_spec k 12); simpl; f_equal.
  - apply Z.mod_small. lia.
  - pose proof (Z.div_mod k 12 ltac:(lia)) as Hdm.
    replace (k / 12) with 1 in Hdm
      by (apply (Z.div_unique k 12 1 (k - 12)); lia).
    lia.
Qed.

Lemma decode_encoded_key_signature seq_key :
  0 ≤ KeySignature.key seq_key < 12 →
  key_number_in_range (encode_key_signature seq_key)
  ∧ decoded_key_signature (encode_key_signature seq_key) = seq_key.
Proof.
  destruct seq_key as [t k m].
  unfold key_number_in_range, encode_key_signature, decoded_key_signature,
    _PRETTY_MIDI_MAJOR_TO_MINOR_OFFSET. simpl. intros Hk.
  destruct m; simpl.
  - split; [lia|]. rewrite Z.mod_small by lia.
    destruct (Z.ltb_spec k 12); [done|lia].
  - split; [lia|].
    replace ((k + 12) mod 12) with k
      by (apply (Z.mod_unique (k + 12) 12 1 k); lia).
    destruct (Z.ltb_spec (k + 12) 12); [lia|done].
Qed.

(** ** Encoding and decoding again *)

(** X19. A sequence whose key signatures all have their key in [0, 11] is
    encoded into an object the decoder accepts, and decoding it gives back
    the resolution, the time signatures and the key signatures. *)
Theorem encode_decode_signatures parse get_tempo_changes time_to_tick
    sequence pm continue_on_exception :
  sequence_proto_to_pretty_midi time_to_tick sequence = Return pm →
  Forall (λ ks, 0 ≤ KeySignature.key ks < 12) (key_signatures sequence) →
  ∃ sequence',
    midi_to_sequence_proto parse get_tempo_changes (Object pm)
      continue_on_exception = Return (Some sequence')
    ∧ ticks_per_beat sequence' = ticks_per_beat sequence
    ∧ time_signatures sequence' = time_signatures sequence
    ∧ key_signatures sequence' = key_signatures sequence.
Proof.
  intros Hpm Hk.
  destruct (sequence_proto_to_pretty_midi_shape _ _ _ Hpm) as (new & -> & _).
  cbn [midi_to_sequence_proto]. rewrite convert_in_range.
  - eexists. split; [reflexivity|].
    cbn [decoded_sequence ticks_per_beat time_signatures key_signatures
         pretty_midi.resolution pretty_midi.time_signature_changes
         pretty_midi.key_signature_changes].
    split; [done|]. split.
    + change (map decoded_time_signature
                (encoded_time_signature <$> time_signatures sequence))
        with (decoded_time_signature
                <$> (encoded_time_signature <$> time_signatures sequence)).
      rewrite <- list_fmap_compose.
      rewrite <- (list_fmap_id (time_signatures sequence)) at 2.
      apply list_fmap_ext. by intros _ [] _.
    + change (map decoded_key_signature
                (encode_key_signature <$> key_signatures sequence))
        with (decoded_key_signature
                <$> (encode_key_signature <$> key_signatures sequence)).
      rewrite <- list_fmap_compose.
      rewrite <- (list_fmap_id (key_signatures sequence)) at 2.
      apply list_fmap_ext. intros _ ks Hks%list_elem_of_lookup_2.
      apply decode_encoded_key_signature.
      by apply (proj1 (Forall_forall _ _) Hk).
  - cbn [pretty_midi.key_signature_changes]. apply Forall_fmap.
    eapply Forall_impl; [exact Hk|]. intros ks Hks.
    by apply decode_encoded_key_signature.
Qed.

Lemma encode_decode_signatures_witness :
  ∃ sequence',
    midi_to_sequence_proto parse_fails default_tempo_changes
      (Object
         (pretty_midi.mk 480 (Some 120%float) []
            [pretty_midi.TimeSignature.TimeSignature 4 4 0%float]
            [pretty_midi.KeySignature.KeySignature 14 0%float]
            [pretty_midi.Instrument.mk 0 false [] [] []]))
      false = Return (Some sequence')
    ∧ ticks_per_beat sequence' = 480
    ∧ time_signatures sequence' = [TimeSignature.mk 0%float 4 4]
    ∧ key_signatures sequence' = [KeySignature.mk 0%float 2 MINOR].
Proof.
  apply (encode_decode_signatures parse_fails default_tempo_changes
           constant_tempo_time_to_tick no_events_sequence _ false eq_refl).
  repeat constructor; simpl; lia.
Defined.

(** ** Decoding, encoding and decoding again *)

Lemma imap_Forall2_ext {A B} (R : A → A → Prop) (f g : nat → A → B) l k :
  Forall2 R l k →
  (∀ i x y, R x y → f i x = g i y) →
  imap f l = imap g k.
Proof.
  intros H; revert f g. induction H as [|x y l k Hxy _ IH]; intros f g Hfg.
  - done.
  - simpl. f_equal; [by apply Hfg|]. apply IH. intros i. apply Hfg.
Qed.

Lemma instrument_major_same {E F} (tag : Z → Z → E → F)
    (events_of : pretty_midi.Instrument.t → list E) l k :
  Forall2
    (λ a b,
       pretty_midi.Instrument.program a = pretty_midi.Instrument.program b
       ∧ events_of a = events_of b) l k →
  instrument_major tag events_of l = instrument_major tag events_of k.
Proof.
  intros H. unfold instrument_major. f_equal.
  eapply imap_Forall2_ext; [exact H|]. by intros i x y [-> ->].
Qed.

Lemma reencoded_same start instruments :
  Forall2
    (λ a b,
       pretty_midi.Instrument.program a = pretty_midi.Instrument.program b
       ∧ pretty_midi.Instrument.notes a = pretty_midi.Instrument.notes b
       ∧ pretty_midi.Instrument.pitch_bends a
         = pretty_midi.Instrument.pitch_bends b
       ∧ pretty_midi.Instrument.control_changes a
         = pretty_midi.Instrument.control_changes b)
    (reencoded <$> enumerate_from start instruments) instruments.
Proof.
  revert start; induction instruments as [|inst l IH]; intros start;
    constructor; [done|apply IH].
Qed.

Lemma filter_has_events_enumerate_from start instruments :
  Forall has_events instruments →
  filter (λ e : Z * pretty_midi.Instrument.t, has_events e.2)
    (enumerate_from start instruments)
  = enumerate_from start instruments.
Proof.
  intros H; revert start. induction H as [|inst l Hi _ IH]; intros start.
  - done.
  - simpl. rewrite filter_cons_True by done. by rewrite IH.
Qed.

(** The decoder reads the same events from the re-encoded instruments as
    from the original ones, when every original instrument has events. *)
Lemma instrument_major_reencoded {E F} (tag : Z → Z → E → F)
    (events_of : pretty_midi.Instrument.t → list E) instruments :
  (∀ a b,
     pretty_midi.Instrument.notes a = pretty_midi.Instrument.notes b
     ∧ pretty_midi.Instrument.pitch_bends a
       = pretty_midi.Instrument.pitch_bends b
     ∧ pretty_midi.Instrument.control_changes a
       = pretty_midi.Instrument.control_changes b →
     events_of a = events_of b) →
  events_of (pretty_midi.Instrument.Instrument 0 false) = [] →
  Forall has_events instruments →
  instrument_major tag events_of
    (reencoded_first instruments
     :: (reencoded
           <$> filter (λ e : Z * pretty_midi.Instrument.t, has_events e.2)
                 (tail (enumerate instruments))))
  = instrument_major tag events_of instruments.
Proof.
  intros Hev Hnil Hall. destruct Hall as [|inst0 rest H0 Hrest].
  - unfold instrument_major, enumerate.
    cbn [enumerate_from tail reencoded_first filter fmap list_fmap imap
         mjoin list_join list_filter].
    by rewrite Hnil.
  - unfold enumerate. cbn [enumerate_from tail reencoded_first].
    rewrite decide_True by done.
    rewrite filter_has_events_enumerate_from by done.
    apply instrument_major_same. constructor.
    + split; [done|]. by apply Hev.
    + eapply Forall2_impl; [apply reencoded_same|].
      intros a b (? & ?). split; [done|]. by apply Hev.
Qed.

(** X21. When every instrument of a MIDI object has at least one event,
    decoding it, encoding the sequence and decoding the result gives the
    first sequence again in every field but the tempos, which the decoder
    takes from the object's tempo map. *)
Theorem decode_encode_decode parse get_tempo_changes time_to_tick midi_data
    continue_on_exception continue_on_exception' midi sequence pm :
  parsed parse midi_data = Some midi →
  midi_to_sequence_proto parse get_tempo_changes midi_data
    continue_on_exception = Return (Some sequence) →
  sequence_proto_to_pretty_midi time_to_tick sequence = Return pm →
  Forall has_events (pretty_midi.instruments midi) →
  ∃ sequence',
    midi_to_sequence_proto parse get_tempo_changes (Object pm)
      continue_on_exception' = Return (Some sequence')
    ∧ ticks_per_beat sequence' = ticks_per_beat sequence
    ∧ total_time sequence' = total_time sequence
    ∧ time_signatures sequence' = time_signatures sequence
    ∧ key_signatures sequence' = key_signatures sequence
    ∧ notes sequence' = notes sequence
    ∧ pitch_bends sequence' = pitch_bends sequence
    ∧ control_changes sequence' = control_changes sequence.
Proof.
  intros Hp Hs Hpm Hall.
  destruct (midi_to_sequence_proto_returns _ _ _ _ _ _ Hp Hs) as [Hk [= ->]].
  pose proof (instruments_of_encoded_decoded _ _ _ _ Hpm) as Hinst.
  destruct (sequence_proto_to_pretty_midi_shape _ _ _ Hpm)
    as (new & Hshape & _).
  assert (pretty_midi.key_signature_changes pm
          = pretty_midi.key_signature_changes midi) as Hkeys.
  { rewrite Hshape. cbn [pretty_midi.key_signature_changes decoded_sequence
                         key_signatures].
    clear -Hk. induction Hk as [|k l Hk _ IH]; [done|].
    cbn [map fmap list_fmap]. rewrite encode_decoded_key_signature by done.
    f_equal. exact IH. }
  assert (pretty_midi.time_signature_changes pm
          = pretty_midi.time_signature_changes midi) as Hts.
  { rewrite Hshape. cbn [pretty_midi.time_signature_changes decoded_sequence
                         time_signatures].
    generalize (pretty_midi.time_signature_changes midi).
    induction l as [|ts l IH]; [done|]. cbn [map fmap list_fmap].
    rewrite encoded_decoded_time_signature. f_equal. exact IH. }
  assert (pretty_midi.resolution pm = pretty_midi.resolution midi) as Hres.
  { by rewrite Hshape. }
  cbn [midi_to_sequence_proto]. rewrite convert_in_range by (by rewrite Hkeys).
  eexists. split; [reflexivity|].
  unfold decoded_sequence.
  cbn [ticks_per_beat total_time time_signatures key_signatures notes
       pitch_bends control_changes].
  rewrite Hres, Hts, Hkeys, Hinst.
  rewrite !instrument_major_reencoded by (done || naive_solver).
  done.
Qed.

Lemma decode_encode_decode_witness :
  ∃ sequence',
    midi_to_sequence_proto parse_fails default_tempo_changes
      (Object
         (pretty_midi.mk 220 (Some 120%float) [] [] []
            [pretty_midi.Instrument.mk 5 false
               [pretty_midi.Note.Note 100 60 1%float 2%float;
                pretty_midi.Note.Note 100 62 0.5%float 1%float]
               [pretty_midi.PitchBend.PitchBend 10 0.25%float]
               [];
             pretty_midi.Instrument.mk 7 false
               [pretty_midi.Note.Note 90 64 0%float 3%float]
               [pretty_midi.PitchBend.PitchBend 20 0%float]
               [pretty_midi.ControlChange.ControlChange 64 127 0%float]]))
      true = Return (Some sequence')
    ∧ notes sequence'
      = [Note.mk 0 5 1%float 2%float 60 100;
         Note.mk 0 5 0.5%float 1%float 62 100;
         Note.mk 1 7 0%float 3%float 64 90].
Proof.
  destruct (decode_encode_decode parse_fails default_tempo_changes
              constant_tempo_time_to_tick (Object two_instruments_midi)
              false true two_instruments_midi _ _ eq_refl eq_refl eq_refl)
    as (sequence' & Hs & _ & _ & _ & _ & Hn & _).
  - constructor; [left; discriminate|].
    constructor; [left; discriminate|]. constructor.
  - exists sequence'. split; [exact Hs | exact Hn].
Defined.

(** ** sequence_proto_to_midi_file *)



Lemma midi_file_conversion_errors_witness :
  midi_file_to_sequence_proto (parse_as mixed_keys_midi)
    default_tempo_changes (one_file "MThd") "song.mid" false
  = Raise (MIDIConversionError (Wrapped (InvalidMidiMode 2))).
Proof.
  apply (midi_file_conversion_errors (parse_as mixed_keys_midi)
           default_tempo_changes (one_file "MThd") "song.mid").
  exists "MThd"%string, (InvalidMidiMode 2). by split.
Defined.

Lemma encoder_returns_only_with_defined_tick_scales_witness :
  Forall
    (λ t, PrimFloat.eqb (float_of_Z 480 * Tempo.bpm t)%float 0%float = false)
    [Tempo.mk 2%float 90%float]
  ∧ length [(1920, (60 / 43200)%float)] = 1%nat.
Proof.
  apply (encoder_returns_only_with_defined_tick_scales
           constant_tempo_time_to_tick two_tempos_sequence
           (pretty_midi.mk 480 (Some 120%float)
              [(1920, (60 / 43200)%float)] [] []
              [pretty_midi.Instrument.mk 0 false [] [] []])
           eq_refl).
Defined.
